(** * State cells, render passes and the example components

    A shallow embedding of the hook-based examples of this repository:
    the todo list ([02_useState_todos.js]), the theme switch, and the
    hover hook of [d_Custom_Hooks.md].  The examples are written against
    [React.useState]; the state-cell store and the render scheduler that
    give [useState] its meaning are not part of the repository and are
    modelled after the specification (sections 3 and 4). *)

From Stdlib Require Import String Ascii.
From stdpp Require Import base list gmap strings sorting.

Local Open Scope string_scope.
Local Open Scope list_scope.
Local Open Scope nat_scope.

(** ** A state monad for code that threads state through calls *)

(** A computation over a state [S] returning an [A]. *)
Definition State (S A : Type) : Type := S -> A * S.

#[export] Instance State_ret {S} : MRet (State S) := fun A a s => (a, s).

#[export] Instance State_bind {S} : MBind (State S) :=
  fun A B k m s => let (a, s') := m s in k a s'.

(** ** The random source

    [Math.random()] returns a double in [0, 1).  The code reads a draw
    only through [toString(36)], so a draw is represented by the digits
    that follow the radix point in its radix-36 rendering (the empty
    string for the draw [0], which renders as ["0"]). *)

Definition Draw := string.

(** The random source: what the [k]-th call of [Math.random()] yields,
    and the number of calls made so far. *)
Record RandState := { oracle : nat -> Draw; calls : nat }.

(** Code that may call [Math.random()]. *)
Definition Rand := State RandState.

(** [Math.random()]: the next draw. *)
Definition Math_random : Rand Draw :=
  fun r => (oracle r (calls r), {| oracle := oracle r; calls := S (calls r) |}).

(** [n.toString(36)] for a draw [n]. *)
Definition toString36 (d : Draw) : string :=
  match d with
  | EmptyString => "0"
  | _ => "0." +:+ d
  end.

(** [s.substr(start, len)] for non-negative arguments. *)
Definition substr (start len : nat) (s : string) : string :=
  substring start len s.

(** [generateId], lines 12-19 of the todo example. *)
Definition generateId : Rand string :=
  d ← Math_random;
  mret ("_" +:+ substr 2 9 (toString36 d)).

(** ** Values held in cells *)

(** A record of the list, [{ text, id }] (lines 27-30). *)
Record todo := { text : string; id : string }.

(** What the cells of the examples hold: the hovering flag, the theme
    and the input text, the todo list. *)
Inductive value :=
| VBool (b : bool)
| VStr (s : string)
| VTodos (l : list todo).

(** Reading a cell at the type its call site uses. *)
Class Storable (A : Type) := {
  inject : A -> value;
  project : value -> option A;
}.

#[export] Instance Storable_bool : Storable bool :=
  {| inject := VBool;
     project v := match v with VBool b => Some b | _ => None end |}.

#[export] Instance Storable_string : Storable string :=
  {| inject := VStr;
     project v := match v with VStr s => Some s | _ => None end |}.

#[export] Instance Storable_todos : Storable (list todo) :=
  {| inject := VTodos;
     project v := match v with VTodos l => Some l | _ => None end |}.

(** ** State Slot Store

    Modelled from the spec: the store behind [React.useState] (section
    4.1: [beginRender], [nextCell], [requestUpdate],
    [commitPendingUpdates]) is not in the repository. *)

(** Modelled from the spec: the identity of a cell, which is the
    owning instance and the position of the producing call within a
    render pass (section 3); the store itself is not in the repository. *)
Record CellRef := { ref_inst : nat; ref_index : nat }.

(** Modelled from the spec: a cell, [{ index, value }] with its
    identity (section 3); the store is not in the repository. *)
Record Cell := { cell_ref : CellRef; cell_value : value }.

(** Modelled from the spec: what [requestUpdate] is given, a new value
    or an updater applied to the prior value (section 4.1,
    [valueOrUpdater]); the store is not in the repository.  The updater
    of the todo list calls [generateId], hence [Rand]. *)
Inductive valueOrUpdater :=
| NewValue (v : value)
| Updater (f : value -> Rand value).

(** Modelled from the spec: a pending [(Cell, newValue)] pair
    (section 3, UpdateRequest); the store is not in the repository. *)
Record UpdateRequest := { target : CellRef; payload : valueOrUpdater }.

(** Modelled from the spec: the context of a render pass, which the
    source leaves implicit in React (section 9, "current instance"):
    the instance being rendered, its cells, the cell cursor, and the
    cell-call sequence of the pass so far (the [initial] argument of
    each call, oldest first). *)
Record RenderCtx := {
  rc_inst : nat;
  rc_cells : list value;
  rc_cursor : nat;
  rc_calls : list value;
}.

(** Code that may call hooks: it runs inside a render pass. *)
Definition Hook := State RenderCtx.

(** Modelled from the spec: [beginRender], absent from the repository,
    resets the cursor to 0 (section 4.1). *)
Definition beginRender (inst : nat) (cells : list value) : RenderCtx :=
  {| rc_inst := inst; rc_cells := cells; rc_cursor := 0; rc_calls := [] |}.

(** Modelled from the spec: [nextCell(initial)], absent from the
    repository, returns the cell at the cursor and advances the cursor
    (section 4.1).  On the first pass no cell exists at
    any position, so each call creates its cell with [initial]; later
    passes find the existing cell and ignore [initial].  A position past
    the existing cells (more calls than in the pass before) has no
    existing cell either and is served like a first call. *)
Definition nextCell (initial : value) : Hook Cell := fun ctx =>
  let i := rc_cursor ctx in
  let r := {| ref_inst := rc_inst ctx; ref_index := i |} in
  match rc_cells ctx !! i with
  | Some v =>
      ({| cell_ref := r; cell_value := v |},
       {| rc_inst := rc_inst ctx; rc_cells := rc_cells ctx; rc_cursor := S i;
          rc_calls := rc_calls ctx ++ [initial] |})
  | None =>
      ({| cell_ref := r; cell_value := initial |},
       {| rc_inst := rc_inst ctx; rc_cells := rc_cells ctx ++ [initial];
          rc_cursor := S i; rc_calls := rc_calls ctx ++ [initial] |})
  end.

(** The argument of a setter, at the type of the call site:
    [setInput("")] passes a value, [setTodos(todos => ...)] an updater. *)
Inductive SetterArg (A : Type) :=
| SetTo (a : A)
| Update (f : A -> Rand A).
Arguments SetTo {A} a.
Arguments Update {A} f.

(** The untyped request a typed setter argument stands for.  An updater
    that meets a value of another type than its own, which can only
    happen after the cursor has shifted, leaves the value as it is. *)
Definition erase {A} `{Storable A} (x : SetterArg A) : valueOrUpdater :=
  match x with
  | SetTo a => NewValue (inject a)
  | Update f =>
      Updater (fun v =>
        match project v with
        | Some a => a' ← f a; mret (inject a')
        | None => mret v
        end)
  end.

(** Modelled from the spec: the setter [React.useState] returns,
    [x => requestUpdate(cell, x)] (section 4.3); React is not in the
    repository.  The setter only describes the request, which is
    carried out when the handler that calls the setter is dispatched. *)
Definition setterOf {A} `{Storable A} (r : CellRef) : SetterArg A -> UpdateRequest :=
  fun x => {| target := r; payload := erase x |}.

(** Modelled from the spec: [React.useState(initial)], which is not in
    the repository, allocates one cell and returns its value with its
    setter (section 4.3).  A cell holding a value of another type than the call site's can only
    be met after the cursor has shifted; the typed embedding then hands
    out [initial]. *)
Definition useState {A} `{Storable A} (initial : A)
  : Hook (A * (SetterArg A -> UpdateRequest)) :=
  c ← nextCell (inject initial);
  mret (default initial (project (cell_value c)), setterOf (cell_ref c)).

(** ** Rendered output

    What a pass returns to the rendering engine: a tree of elements
    whose props carry values and handler closures.  Of the tree only
    the handlers matter here. *)

(** The part of a DOM event the handlers read: [e.target.value]. *)
Record Event := { target_value : string }.

(** The body of an event handler: the setter calls it makes, in order. *)
Definition Handler := list UpdateRequest.

(** The value of a JSX prop: a string or a handler. *)
Inductive PropV :=
| PStr (s : string)
| POn (h : Event -> Handler).

(** A JSX element, a text child, or [null]. *)
#[warnings="-register-all"]
Inductive Element :=
| El (tag : string) (props : list (string * PropV)) (children : list Element)
| Txt (s : string)
| Null.

(** The children and the props of an element. *)
Definition children_of (e : Element) : list Element :=
  match e with El _ _ cs => cs | _ => [] end.

Definition props_of (e : Element) : list (string * PropV) :=
  match e with El _ ps _ => ps | _ => [] end.

(** The element reached from [e] by following child positions. *)
Fixpoint element_at (path : list nat) (e : Element) : option Element :=
  match path with
  | [] => Some e
  | k :: path' =>
      match children_of e !! k with
      | Some c => element_at path' c
      | None => None
      end
  end.

(** The value of prop [name]; of two props with one name the later
    one counts, as in JSX. *)
Fixpoint find_prop (name : string) (ps : list (string * PropV)) : option PropV :=
  match ps with
  | [] => None
  | (n, v) :: ps' =>
      match find_prop name ps' with
      | Some v' => Some v'
      | None => if String.eqb n name then Some v else None
      end
  end.

(** The handler bound to prop [name] of the element at [path]. *)
Definition handler_at (path : list nat) (name : string) (e : Element)
  : option (Event -> Handler) :=
  match element_at path e with
  | Some el =>
      match find_prop name (props_of el) with
      | Some (POn h) => Some h
      | _ => None
      end
  | None => None
  end.

(** ** Render Scheduler

    Modelled from the spec: the scheduler (section 4.2: [mount],
    [scheduleRender], [runPass], [unmount]) is not in the repository. *)

(** Modelled from the spec: the states of a mounted instance (section
    4.2, state machine), with the state a consistency violation leaves
    it in (section 7): failed, with the expected and the actual number
    of cell calls.  The scheduler is not in the repository. *)
Inductive Status :=
| Clean
| Dirty
| Failed (expected actual : nat).

(** Whether the instance has stopped on a consistency violation. *)
Definition is_failed (s : Status) : bool :=
  match s with Failed _ _ => true | _ => false end.

(** Modelled from the spec: a ComponentInstance (section 3) with what
    the scheduler keeps for it (section 4.2); the scheduler is not in
    the repository. *)
Record Instance := {
  component : Hook Element;          (* the component function *)
  cells : list value;                (* the committed cell values *)
  pending : list (nat * valueOrUpdater);  (* queued requests, oldest first *)
  cellCount : option nat;            (* cell calls of the previous pass *)
  status : Status;                   (* Mounted(Clean), Mounted(Dirty), failed *)
  inFlight : bool;                   (* a pass of this instance is running *)
  version : nat;                     (* RenderVersion: passes executed *)
  output : option Element;           (* what the last pass returned *)
}.

(** Modelled from the spec: the mounted instances, the scheduler's set
    of instances with a queued pass (section 5), and the random source. *)
Record World := {
  instances : gmap nat Instance;
  renderQueue : list nat;            (* passes queued for the next turn *)
  rand : RandState;
}.

(** The world with instance [i] replaced. *)
Definition set_instance (i : nat) (inst : Instance) (w : World) : World :=
  {| instances := <[i := inst]> (instances w);
     renderQueue := renderQueue w; rand := rand w |}.

(** One request applied to the prior value of its cell. *)
Definition applyUpdate (p : valueOrUpdater) (old : value) : Rand value :=
  match p with
  | NewValue v => mret v
  | Updater f => f old
  end.

(** Modelled from the spec: [commitPendingUpdates], absent from the
    repository, applies the queued requests oldest first (section 4.1).  A request for a position that holds no cell
    changes nothing. *)
Fixpoint commitPendingUpdates (q : list (nat * valueOrUpdater)) (cs : list value)
  : Rand (list value) :=
  match q with
  | [] => mret cs
  | (k, p) :: q' =>
      match cs !! k with
      | Some old => v ← applyUpdate p old; commitPendingUpdates q' (<[k := v]> cs)
      | None => commitPendingUpdates q' cs
      end
  end.

(** Modelled from the spec: [scheduleRender], absent from the
    repository, marks the instance dirty and queues one pass unless one
    is in flight or already queued (section 4.2).  A failed instance is
    not rendered any more (section 7) and stays as it is. *)
Definition scheduleRender (i : nat) (w : World) : World :=
  match instances w !! i with
  | None => w
  | Some inst =>
      if is_failed (status inst) then w
      else
        let inst' :=
          {| component := component inst; cells := cells inst;
             pending := pending inst; cellCount := cellCount inst;
             status := Dirty; inFlight := inFlight inst;
             version := version inst; output := output inst |} in
        {| instances := <[i := inst']> (instances w);
           renderQueue :=
             if inFlight inst || bool_decide (i ∈ renderQueue w)
             then renderQueue w else renderQueue w ++ [i];
           rand := rand w |}
  end.

(** Modelled from the spec: [requestUpdate], absent from the
    repository, queues the request with the instance that owns the cell
    and schedules a pass; nothing is changed synchronously (section 4.1).  A request for an unmounted instance is
    discarded. *)
Definition requestUpdate (r : UpdateRequest) (w : World) : World :=
  let i := ref_inst (target r) in
  match instances w !! i with
  | None => w
  | Some inst =>
      let inst' :=
        {| component := component inst; cells := cells inst;
           pending := pending inst ++ [(ref_index (target r), payload r)];
           cellCount := cellCount inst; status := status inst;
           inFlight := inFlight inst;
           version := version inst; output := output inst |} in
      scheduleRender i (set_instance i inst' w)
  end.

(** Modelled from the spec: [runPass], absent from the repository,
    commits the pending updates, resets the cursor, runs the component
    function and compares the number of cell calls with that of the
    previous pass (sections 4.2, 7 and 9).  A mismatch is
    a consistency violation: the instance keeps no output and is never
    rendered again. *)
Definition runPass (i : nat) (w : World) : World :=
  match instances w !! i with
  | None => w
  | Some inst =>
      if is_failed (status inst) then w
      else
        let (cs, r) := commitPendingUpdates (pending inst) (cells inst) (rand w) in
        let (out, ctx) := component inst (beginRender i cs) in
        let n := rc_cursor ctx in
        let ok := match cellCount inst with
                  | Some m => bool_decide (m = n)
                  | None => true
                  end in
        let inst' :=
          if ok then
            {| component := component inst; cells := rc_cells ctx;
               pending := []; cellCount := Some n; status := Clean;
               inFlight := false;
               version := S (version inst); output := Some out |}
          else
            {| component := component inst; cells := cs;
               pending := []; cellCount := cellCount inst;
               status := Failed (default 0 (cellCount inst)) n;
               inFlight := false;
               version := S (version inst); output := None |} in
        {| instances := <[i := inst']> (instances w);
           renderQueue := renderQueue w; rand := r |}
  end.

(** Modelled from the spec: [mount], absent from the repository,
    registers the instance and runs its first pass (section 4.2).  Mounting under an identity already in use changes
    nothing. *)
Definition mount (i : nat) (c : Hook Element) (w : World) : World :=
  match instances w !! i with
  | Some _ => w
  | None =>
      runPass i (set_instance i
        {| component := c; cells := []; pending := []; cellCount := None;
           status := Clean; inFlight := false;
           version := 0; output := None |} w)
  end.

(** Modelled from the spec: [unmount], absent from the repository,
    releases the cells and cancels the queued passes of the instance
    (sections 4.2 and 5). *)
Definition unmount (i : nat) (w : World) : World :=
  {| instances := delete i (instances w);
     renderQueue := filter (fun j => j ≠ i) (renderQueue w);
     rand := rand w |}.

(** Modelled from the spec: one scheduling turn of the scheduler, which
    is not in the repository: the queued passes run, oldest first
    (section 4.2). *)
Definition turn (w : World) : World :=
  foldl (fun w' i => runPass i w')
        {| instances := instances w; renderQueue := []; rand := rand w |}
        (renderQueue w).

(** Modelled from the spec: a handler runs to completion, its setter
    calls becoming requests in order (section 5); event dispatch is not
    in the repository. *)
Definition runHandler (h : Handler) (w : World) : World :=
  foldl (fun w' r => requestUpdate r w') w h.

(** Modelled from the spec: event dispatch, which is not in the
    repository (section 6): the handler bound to prop [name] of the
    element at [path] in the last output of instance [i] is called with
    [e]. *)
Definition dispatch (i : nat) (path : list nat) (name : string) (e : Event)
  (w : World) : World :=
  match instances w !! i with
  | None => w
  | Some inst =>
      match output inst with
      | None => w
      | Some out =>
          match handler_at path name out with
          | Some h => runHandler (h e) w
          | None => w
          end
      end
  end.

(** An event followed by the scheduling turn it causes. *)
Definition fire (i : nat) (path : list nat) (name : string) (e : Event)
  (w : World) : World :=
  turn (dispatch i path name e w).

(** The world before anything is mounted, with random source [o]. *)
Definition emptyWorld (o : nat -> Draw) : World :=
  {| instances := ∅; renderQueue := []; rand := {| oracle := o; calls := 0 |} |}.

(** ** The todo list, [02_useState_todos.js] *)

(** [handleSubmit], lines 25-33; [setTodos], [setInput] and [input] are
    the variables of [Todo] the closure captures. *)
Definition handleSubmit
  (setTodos : SetterArg (list todo) -> UpdateRequest)
  (setInput : SetterArg string -> UpdateRequest) (input : string) : Handler :=
  [ setTodos (Update (fun todos =>
      i ← generateId;
      mret (todos ++ [ {| text := input; id := i |} ])));
    setInput (SetTo "") ].

(** [removeTodo], line 35; its parameter [id] is [id'] here, [id] being
    the field of the record. *)
Definition removeTodo
  (setTodos : SetterArg (list todo) -> UpdateRequest) (id' : string) : Handler :=
  [ setTodos (Update (fun todos =>
      mret (filter (fun todo => id todo ≠ id') todos))) ].

(** [Todo], lines 21-57. *)
Definition Todo : Hook Element :=
  '(todos, setTodos) ← useState ([] : list todo);
  '(input, setInput) ← useState "";
  mret (El "div" [] [
    El "input"
       [ ("type", PStr "text"); ("value", PStr input);
         ("placeholder", PStr "New Todo");
         ("onChange", POn (fun e => [ setInput (SetTo (target_value e)) ])) ]
       [];
    El "button"
       [ ("onClick", POn (fun e => handleSubmit setTodos setInput input)) ]
       [ Txt "Submit" ];
    El "ul" []
       ((fun t =>
          El "li" [ ("key", PStr (id t)) ] [
            El "span" [] [ Txt (text t) ];
            El "button" [ ("onClick", POn (fun e => removeTodo setTodos (id t))) ]
               [ Txt "x" ] ])
        <$> todos) ]).

(** Where the handlers of [Todo] sit in its output: the [input], the
    Submit [button], and the [button] of the [k]-th [li] of the [ul]. *)
Definition input_path : list nat := [0].
Definition submit_path : list nat := [1].
Definition remove_path (k : nat) : list nat := [2; k; 1].

(** ** The theme switch, [unnamed/part_000] *)

(** [Theme], lines 5-17. *)
Definition Theme : Hook Element :=
  '(theme, setTheme) ← useState "light";
  mret (El "div" [ ("className", PStr theme) ] [
    if String.eqb theme "light"
    then El "button" [ ("onClick", POn (fun _ => [ setTheme (SetTo "dark") ])) ]
            [ Txt "🔦" ]
    else El "button" [ ("onClick", POn (fun _ => [ setTheme (SetTo "light") ])) ]
            [ Txt "💡" ] ]).

(** The [button] of [Theme], the only child of its [div]. *)
Definition theme_button_path : list nat := [0].

(** ** The hover hook, [d_Custom_Hooks.md] *)

(** [useHover], lines 184-195. *)
Definition useHover : Hook (bool * list (string * PropV)) :=
  '(hovering, setHovering) ← useState false;
  let mouseOver : Handler := [ setHovering (SetTo true) ] in
  let mouseOut : Handler := [ setHovering (SetTo false) ] in
  let attrs := [ ("onMouseOver", POn (fun _ => mouseOver));
                 ("onMouseOut", POn (fun _ => mouseOut)) ] in
  mret (hovering, attrs).

(** [Info], lines 198-214, the consumer of [useHover]. *)
Definition Info (id size : string) : Hook Element :=
  '(hovering, attrs) ← useHover;
  mret (El "React.Fragment" [] [
    if bool_decide (hovering = true)
    then El "Tooltip" [ ("id", PStr id) ] []
    else Null;
    El "svg"
       (attrs ++ [ ("width", PStr size); ("viewBox", PStr "0 0 16 16") ])
       [ El "path" [ ("d", PStr "M9 8a1 1 0 0 0-1-1H5.5a1 1 0 1 0 0 2H7v4a1 1 0 0 0 2 0zM4 0h8a4 4 0 0 1 4 4v8a4 4 0 0 1-4 4H4a4 4 0 0 1-4-4V4a4 4 0 0 1 4-4zm4 5.5a1.5 1.5 0 1 0 0-3 1.5 1.5 0 0 0 0 3z") ] [] ] ]).

(** The [svg] of [Info], which carries the attributes of [useHover]. *)
Definition svg_path : list nat := [1].


(** ** Vocabulary of the statements *)

(** The instance left behind by a pass of component [c] that found the
    cells [cs] committed and made one cell call per cell. *)
Definition settled (c : Hook Element) (i : nat) (cs : list value) (ver : nat)
  : Instance :=
  {| component := c; cells := cs; pending := []; cellCount := Some (length cs);
     status := Clean; inFlight := false; version := ver;
     output := Some (c (beginRender i cs)).1 |}.

(** The cell-call sequence component [c] produces over the cells [cs]. *)
Definition callSequence (c : Hook Element) (i : nat) (cs : list value)
  : list value :=
  rc_calls (c (beginRender i cs)).2.

(** The number of cell calls of that pass, as [runPass] counts them. *)
Definition callCount (c : Hook Element) (i : nat) (cs : list value) : nat :=
  rc_cursor (c (beginRender i cs)).2.

(** The todo list held by instance [i]. *)
Definition todos_of (i : nat) (w : World) : option (list todo) :=
  inst ← instances w !! i;
  v ← cells inst !! 0;
  project v.

(** The input text held by instance [i] of [Todo]. *)
Definition input_of (i : nat) (w : World) : option string :=
  inst ← instances w !! i;
  v ← cells inst !! 1;
  project v.

(** The theme held by instance [i] of [Theme]. *)
Definition theme_of (i : nat) (w : World) : option string :=
  inst ← instances w !! i;
  v ← cells inst !! 0;
  project v.

(** What [useHover] returned as [hovering] in the last pass of [i]. *)
Definition hovering_of (i : nat) (w : World) : option bool :=
  inst ← instances w !! i;
  Some (useHover (beginRender i (cells inst))).1.1.

(** The event of a click, whose [target.value] no handler reads. *)
Definition click : Event := {| target_value := "" |}.

(** [addItem(text)] on the todo example: the text is typed into the
    input, then Submit is clicked. *)
Definition addItem (i : nat) (txt : string) (w : World) : World :=
  fire i submit_path "onClick" click
    (fire i input_path "onChange" {| target_value := txt |} w).

(** A sequence of [addItem] calls. *)
Definition addItems (i : nat) (txts : list string) (w : World) : World :=
  foldl (fun w' t => addItem i t w') w txts.

(** [removeItem(id)]: the [removeTodo] closure of instance [i] called
    with [idv], followed by the scheduling turn. *)
Definition removeItem (i : nat) (idv : string) (w : World) : World :=
  turn (runHandler
          (removeTodo (setterOf {| ref_inst := i; ref_index := 0 |}) idv) w).

(** [String.prototype.trim], for the texts the claims call empty after
    trimming; the code itself never trims. *)
Definition is_space (c : ascii) : bool :=
  bool_decide (c ∈ [" "; "009"; "010"; "011"; "012"; "013"]%char).

Fixpoint trimStart (s : string) : string :=
  match s with
  | String c s' => if is_space c then trimStart s' else s
  | EmptyString => EmptyString
  end.

Fixpoint trimEnd (s : string) : string :=
  match s with
  | EmptyString => EmptyString
  | String c s' =>
      match trimEnd s' with
      | EmptyString => if is_space c then EmptyString else String c EmptyString
      | t => String c t
      end
  end.

Definition trim (s : string) : string := trimEnd (trimStart s).

(** The id [generateId] makes of the [k]-th draw of oracle [o]. *)
Definition idOfDraw (o : nat -> Draw) (k : nat) : string :=
  "_" +:+ substring 0 9 (o k).

(** Steps of a world: handler invocations and scheduling turns, in any
    interleaving. *)
Inductive Step :=
| Dispatch (i : nat) (path : list nat) (name : string) (e : Event)
| Turn.

(** What a step does. *)
Definition step (st : Step) (w : World) : World :=
  match st with
  | Dispatch i path name e => dispatch i path name e w
  | Turn => turn w
  end.

(** A sequence of steps, first to last. *)
Definition run (sts : list Step) (w : World) : World :=
  foldl (fun w' st => step st w') w sts.

(** Pointer events on instances that use the hover hook. *)
Inductive HoverEvent := Enter | Leave.

(** The pointer enters or leaves the [svg] of instance [i], and the
    turn follows. *)
Definition hover (i : nat) (ev : HoverEvent) (w : World) : World :=
  fire i svg_path
       (match ev with Enter => "onMouseOver" | Leave => "onMouseOut" end)
       click w.

(** A sequence of pointer events, each on the instance it names. *)
Definition play (evs : list (nat * HoverEvent)) (w : World) : World :=
  foldl (fun w' e => hover e.1 e.2 w') w evs.

(** A world of hover users: nothing queued, and every mounted instance
    is an [Info] between passes. *)
Definition hover_world (w : World) : Prop :=
  renderQueue w = [] ∧
  ∀ k inst, instances w !! k = Some inst →
    ∃ a b h ver, inst = settled (Info a b) k [VBool h] ver.

(** A component that breaks the rule of hooks ([a_Rules_of_Hooks.md],
    hooks called inside an if statement): the order of its last two
    cell calls depends on the first cell. *)
Definition Swapped : Hook Element :=
  '(flag, setFlag) ← useState false;
  '(a, b) ← (if flag : bool
             then '(a, _) ← useState "first"; '(b, _) ← useState "second";
                  mret (a, b)
             else '(b, _) ← useState "second"; '(a, _) ← useState "first";
                  mret (a, b));
  mret (El "div" [ ("onClick", POn (fun _ => [ setFlag (SetTo true) ])) ]
          [ Txt a; Txt b ]).

(** An instance once the setter calls of [h] have been queued for it. *)
Definition queued (h : Handler) (inst : Instance) : Instance :=
  {| component := component inst; cells := cells inst;
     pending := pending inst ++ map (fun r => (ref_index (target r), payload r)) h;
     cellCount := cellCount inst; status := Dirty; inFlight := inFlight inst;
     version := version inst; output := output inst |}.

(** The queue once a pass of [i] has been asked for. *)
Definition enqueue (i : nat) (q : list nat) : list nat :=
  if bool_decide (i ∈ q) then q else q ++ [i].

(** The two cells of [Todo]: the list and the input text. *)
Definition todoCells (l : list todo) (s : string) : list value :=
  [VTodos l; VStr s].

(** The records [addItems] makes of the texts [txts] when [c] draws
    have been made before. *)
Definition records (o : nat -> Draw) (c : nat) (txts : list string) : list todo :=
  zip_with (fun t k => {| text := t; id := idOfDraw o k |}) txts
           (seq c (length txts)).

(** The value the handler of a pointer event asks for. *)
Definition is_enter (ev : HoverEvent) : bool :=
  match ev with Enter => true | Leave => false end.

(** The theme the button rendered for theme [t] switches to. *)
Definition other_theme (t : string) : string :=
  if String.eqb t "light" then "dark" else "light".

(** The worlds reached from a mounted [Theme]: instance [i] alone,
    holding [t], with the values [P] queued for its cell. *)
Definition theme_state (i : nat) (P : list string) (t : string) (w : World) : Prop :=
  (∀ k, k ≠ i → instances w !! k = None)
  ∧ Forall (fun s => s = "light" ∨ s = "dark") (t :: P)
  ∧ ∃ ver st,
      is_failed st = false ∧
      instances w !! i =
      Some {| component := Theme; cells := [VStr t];
              pending := (fun s => (0, NewValue (VStr s))) <$> P;
              cellCount := Some 1; status := st; inFlight := false;
              version := ver;
              output := Some (Theme (beginRender i [VStr t])).1 |}.

(** Another one: its second cell call sits inside a conditional, so
    the number of cell calls changes. *)
Definition Conditional : Hook Element :=
  '(flag, setFlag) ← useState false;
  extra ← (if flag : bool
           then '(x, _) ← useState "extra"; mret x
           else mret "");
  mret (El "div" [ ("onClick", POn (fun _ => [ setFlag (SetTo true) ])) ]
          [ Txt extra ]).

(** Instance [i] has failed with [m] cell calls expected and [n] made,
    after [v] passes, and holds the cells [cs] and no output. *)
Definition stopped (i m n v : nat) (cs : list value) (w : World) : Prop :=
  ∃ inst, instances w !! i = Some inst
          ∧ status inst = Failed m n
          ∧ output inst = None
          ∧ version inst = v
          ∧ cells inst = cs.

(** ** The other components of [d_Custom_Hooks.md] *)


(** The components that carry a pasted copy of the hover logic. *)
Module CopyPaste.

(** [Info], lines 23-43: the hover state is kept by the component
    itself. *)
Definition Info (id size : string) : Hook Element :=
  '(hovering, setHovering) ← useState false;
  let mouseOver : Handler := [ setHovering (SetTo true) ] in
  let mouseOut : Handler := [ setHovering (SetTo false) ] in
  mret (El "div" [ ("className", PStr "container") ] [
    if bool_decide (hovering = true)
    then El "Tooltip" [ ("id", PStr id) ] []
    else Null;
    El "svg"
       [ ("onMouseOver", POn (fun _ => mouseOver));
         ("onMouseOut", POn (fun _ => mouseOut));
         ("width", PStr size); ("viewBox", PStr "0 0 16 16") ]
       [ El "path" [ ("d", PStr "M9 8a1 1 0 0 0-1-1H5.5a1 1 0 1 0 0 2H7v4a1 1 0 0 0 2 0zM4 0h8a4 4 0 0 1 4 4v8a4 4 0 0 1-4 4H4a4 4 0 0 1-4-4V4a4 4 0 0 1 4-4zm4 5.5a1.5 1.5 0 1 0 0-3 1.5 1.5 0 0 0 0 3z") ] [] ] ]).

(** [TrendChart], lines 46-64. *)
Definition TrendChart (id : string) : Hook Element :=
  '(hovering, setHovering) ← useState false;
  let mouseOver : Handler := [ setHovering (SetTo true) ] in
  let mouseOut : Handler := [ setHovering (SetTo false) ] in
  mret (El "React.Fragment" [] [
    if bool_decide (hovering = true)
    then El "Tooltip" [ ("id", PStr id) ] []
    else Null;
    El "Chart"
       [ ("type", PStr "trend");
         ("onMouseOver", POn (fun _ => mouseOver));
         ("onMouseOut", POn (fun _ => mouseOut)) ]
       [] ]).


End CopyPaste.

(** [withHover], lines 95-108.  [Component] is a function component
    without state of its own: given the props passed on and the
    [hovering] prop, what it renders. *)
Definition withHover (Component : list (string * PropV) -> bool -> Element)
  : list (string * PropV) -> Hook Element :=
  fun props =>
    '(hovering, setHovering) ← useState false;
    let mouseOver : Handler := [ setHovering (SetTo true) ] in
    let mouseOut : Handler := [ setHovering (SetTo false) ] in
    mret (El "div"
             [ ("onMouseOver", POn (fun _ => mouseOver));
               ("onMouseOut", POn (fun _ => mouseOut)) ]
             [ Component props hovering ]).

(** [Hover], lines 121-132, with its [render] prop. *)
Definition Hover (render : bool -> Element) : Hook Element :=
  '(hovering, setHovering) ← useState false;
  let mouseOver : Handler := [ setHovering (SetTo true) ] in
  let mouseOut : Handler := [ setHovering (SetTo false) ] in
  mret (El "div"
           [ ("onMouseOver", POn (fun _ => mouseOver));
             ("onMouseOut", POn (fun _ => mouseOut)) ]
           [ render hovering ]).

(** ** More vocabulary *)

(** Events fired one after the other at instance [i], each with its
    turn. *)
Definition fireAll (i : nat) (evs : list (list nat * string * Event))
  (w : World) : World :=
  foldl (fun w' ev => fire i ev.1.1 ev.1.2 ev.2 w') w evs.

(** What an [li] of the todo list shows: its key and its text. *)
Definition li_shown (li : Element) : option (string * string) :=
  match find_prop "key" (props_of li),
        children_of li !! 0 ≫= (fun span => children_of span !! 0) with
  | Some (PStr k), Some (Txt t) => Some (k, t)
  | _, _ => None
  end.

(** The items the output of [Todo] shows, first to last. *)
Definition shown_items (out : Element) : list (option (string * string)) :=
  match children_of out !! 2 with
  | Some ul => li_shown <$> children_of ul
  | None => []
  end.

(** The text the input of [Todo] shows. *)
Definition shown_input (out : Element) : option PropV :=
  children_of out !! 0 ≫= (fun inp => find_prop "value" (props_of inp)).

(** The tooltip an output with the hover logic shows, if any: its
    first child. *)
Definition shown_tooltip (out : Element) : option Element :=
  children_of out !! 0.

(** The output of the last pass of instance [i]. *)
Definition output_of (i : nat) (w : World) : option Element :=
  instances w !! i ≫= output.

(** The record made of a text and of the [k]-th draw of [o]. *)
Definition recordOf (o : nat -> Draw) (p : string * nat) : todo :=
  {| text := p.1; id := idOfDraw o p.2 |}.

(** Instance [i] of [Todo] between passes in a world whose random
    source is [o]: each record of its list was made of one of the
    draws consumed so far, later records of later draws. *)
Definition todo_history (o : nat -> Draw) (i : nat) (w : World) : Prop :=
  ∃ (ps : list (string * nat)) (s : string) (ver : nat),
    instances w !! i = Some (settled Todo i (todoCells (recordOf o <$> ps) s) ver)
    ∧ renderQueue w = []
    ∧ oracle (rand w) = o
    ∧ StronglySorted lt (snd <$> ps)
    ∧ Forall (fun p => p.2 < calls (rand w)) ps.


(** ** The identifier generator *)

Lemma substr_toString36 (d : Draw) :
  substr 2 9 (toString36 d) = substring 0 9 d.
Proof. destruct d; reflexivity. Qed.

Lemma substring_length_le (n : nat) (s : string) :
  String.length (substring 0 n s) ≤ n.
Proof.
  revert s; induction n as [|n IH]; intros [|c s]; simpl; try lia.
  specialize (IH s); lia.
Qed.

Lemma substring_prefix (n : nat) (s : string) :
  String.prefix (substring 0 n s) s = true.
Proof.
  revert s; induction n as [|n IH]; intros [|c s]; simpl; auto.
  destruct (Ascii.ascii_dec c c); [apply IH | congruence].
Qed.

Lemma generateId_run (r : RandState) :
  generateId r =
  (idOfDraw (oracle r) (calls r), {| oracle := oracle r; calls := S (calls r) |}).
Proof.
  unfold generateId, idOfDraw, mbind, State_bind, mret, State_ret, Math_random.
  by rewrite substr_toString36.
Qed.

(** C9: whatever the random source yields, the string [generateId]
    returns is ["_"] followed by at most 9 characters, which are the
    leading characters of the radix-36 digits of the draw; its length is
    between 1 and 10 and its first character is ["_"]. *)
Theorem generateId_shape (r : RandState) :
  ∃ t, (generateId r).1 = "_" +:+ t
       ∧ String.prefix t (oracle r (calls r)) = true
       ∧ String.length t ≤ 9
       ∧ 1 ≤ String.length (generateId r).1 ≤ 10
       ∧ String.get 0 (generateId r).1 = Some "_"%char.
Proof.
  exists (substring 0 9 (oracle r (calls r))).
  rewrite generateId_run. unfold idOfDraw. simpl.
  pose proof (substring_length_le 9 (oracle r (calls r))).
  change ("" +:+ ?s) with s.
  split_and!; auto using substring_prefix; lia.
Qed.

(** ** Frame properties of the scheduler *)

Lemma scheduleRender_lookup_ne (i j : nat) (w : World) :
  i ≠ j → instances (scheduleRender i w) !! j = instances w !! j.
Proof.
  intros Hne. unfold scheduleRender.
  destruct (instances w !! i) as [inst|]; [|done].
  destruct (is_failed (status inst)); [done|].
  simpl. by rewrite lookup_insert_ne.
Qed.

Lemma requestUpdate_lookup_ne (r : UpdateRequest) (j : nat) (w : World) :
  ref_inst (target r) ≠ j →
  instances (requestUpdate r w) !! j = instances w !! j.
Proof.
  intros Hne. unfold requestUpdate.
  destruct (instances w !! ref_inst (target r)); [|done].
  rewrite scheduleRender_lookup_ne by done.
  simpl. by rewrite lookup_insert_ne.
Qed.

Lemma runPass_lookup_ne (i j : nat) (w : World) :
  i ≠ j → instances (runPass i w) !! j = instances w !! j.
Proof.
  intros Hne. unfold runPass.
  destruct (instances w !! i) as [inst|]; [|done].
  destruct (is_failed (status inst)); [done|].
  destruct (commitPendingUpdates _ _ _) as [cs r].
  destruct (component inst _) as [out ctx].
  simpl. by rewrite lookup_insert_ne.
Qed.

Lemma runPass_queue (i : nat) (w : World) :
  renderQueue (runPass i w) = renderQueue w.
Proof.
  unfold runPass.
  destruct (instances w !! i) as [inst|]; [|done].
  destruct (is_failed (status inst)); [done|].
  destruct (commitPendingUpdates _ _ _) as [cs r].
  by destruct (component inst _) as [out ctx].
Qed.

Lemma passes_lookup_notin (q : list nat) (j : nat) (w : World) :
  j ∉ q →
  instances (foldl (fun w' i => runPass i w') w q) !! j = instances w !! j.
Proof.
  revert w; induction q as [|i q IH]; intros w Hq; [done|].
  simpl. rewrite IH by set_solver.
  apply runPass_lookup_ne. set_solver.
Qed.

Lemma passes_queue (q : list nat) (w : World) :
  renderQueue (foldl (fun w' i => runPass i w') w q) = renderQueue w.
Proof.
  revert w; induction q as [|i q IH]; intros w; [done|].
  simpl. by rewrite IH, runPass_queue.
Qed.

Lemma turn_queue (w : World) : renderQueue (turn w) = [].
Proof. unfold turn. by rewrite passes_queue. Qed.

Lemma turn_lookup_notin (j : nat) (w : World) :
  j ∉ renderQueue w → instances (turn w) !! j = instances w !! j.
Proof. intros Hq. unfold turn. by rewrite passes_lookup_notin. Qed.

Lemma turn_idle (w : World) : renderQueue w = [] → turn w = w.
Proof. destruct w as [m q r]. simpl. intros ->. reflexivity. Qed.

(** ** Handlers that only call setters of their own instance *)

Lemma enqueue_idem (i : nat) (q : list nat) : enqueue i (enqueue i q) = enqueue i q.
Proof.
  unfold enqueue. destruct (bool_decide (i ∈ q)) eqn:E; rewrite ?E; [done|].
  rewrite bool_decide_eq_true_2; [done | set_solver].
Qed.

Lemma requestUpdate_own (i : nat) (r : UpdateRequest) (inst : Instance) (w : World) :
  ref_inst (target r) = i →
  instances w !! i = Some inst →
  is_failed (status inst) = false →
  inFlight inst = false →
  requestUpdate r w =
  {| instances := <[i := queued [r] inst]> (instances w);
     renderQueue := enqueue i (renderQueue w); rand := rand w |}.
Proof.
  intros Hi Hw Hst Hfl. unfold requestUpdate. rewrite Hi, Hw.
  unfold scheduleRender, set_instance. simpl.
  rewrite lookup_insert_eq. simpl. rewrite Hst, Hfl. simpl.
  rewrite insert_insert_eq. unfold enqueue, queued. simpl.
  by rewrite Hfl.
Qed.

Lemma queued_queued (h1 h2 : Handler) (inst : Instance) :
  queued h2 (queued h1 inst) = queued (h1 ++ h2) inst.
Proof. unfold queued. simpl. by rewrite map_app, app_assoc. Qed.

Lemma runHandler_cons (r : UpdateRequest) (h : Handler) (w : World) :
  runHandler (r :: h) w = runHandler h (requestUpdate r w).
Proof. reflexivity. Qed.

Lemma runHandler_own (i : nat) (h : Handler) (inst : Instance) (w : World) :
  h ≠ [] →
  Forall (fun r => ref_inst (target r) = i) h →
  instances w !! i = Some inst →
  is_failed (status inst) = false →
  inFlight inst = false →
  runHandler h w =
  {| instances := <[i := queued h inst]> (instances w);
     renderQueue := enqueue i (renderQueue w); rand := rand w |}.
Proof.
  intros Hne Hall. revert inst w.
  induction Hall as [|r h Hr Hall IH]; [done|]. clear Hne.
  intros inst w Hw Hst Hfl. rewrite runHandler_cons.
  rewrite (requestUpdate_own i r inst w) by done.
  destruct h as [|r' h]; [done|].
  erewrite IH; [| done | apply lookup_insert_eq | done | done].
  cbn [instances renderQueue rand].
  by rewrite insert_insert_eq, enqueue_idem, queued_queued.
Qed.

(** ** One pass, unfolded *)

Lemma runPass_ok (i : nat) (inst : Instance) (w : World)
    (cs : list value) (r : RandState) (out : Element) (ctx : RenderCtx) :
  instances w !! i = Some inst →
  is_failed (status inst) = false →
  commitPendingUpdates (pending inst) (cells inst) (rand w) = (cs, r) →
  component inst (beginRender i cs) = (out, ctx) →
  (cellCount inst = None ∨ cellCount inst = Some (rc_cursor ctx)) →
  runPass i w =
  {| instances :=
       <[i := {| component := component inst; cells := rc_cells ctx;
                 pending := []; cellCount := Some (rc_cursor ctx);
                 status := Clean; inFlight := false;
                 version := S (version inst); output := Some out |}]>
         (instances w);
     renderQueue := renderQueue w; rand := r |}.
Proof.
  intros Hw Hf Hc Hb Hn. unfold runPass. rewrite Hw, Hf, Hc, Hb.
  destruct Hn as [-> | ->]; [done|].
  by rewrite bool_decide_eq_true_2.
Qed.

Lemma runPass_mismatch (i : nat) (inst : Instance) (w : World)
    (cs : list value) (r : RandState) (out : Element) (ctx : RenderCtx) (m : nat) :
  instances w !! i = Some inst →
  is_failed (status inst) = false →
  commitPendingUpdates (pending inst) (cells inst) (rand w) = (cs, r) →
  component inst (beginRender i cs) = (out, ctx) →
  cellCount inst = Some m →
  m ≠ rc_cursor ctx →
  runPass i w =
  {| instances :=
       <[i := {| component := component inst; cells := cs;
                 pending := []; cellCount := Some m;
                 status := Failed m (rc_cursor ctx); inFlight := false;
                 version := S (version inst); output := None |}]>
         (instances w);
     renderQueue := renderQueue w; rand := r |}.
Proof.
  intros Hw Hf Hc Hb Hm Hne. unfold runPass. rewrite Hw, Hf, Hc, Hb, Hm.
  by rewrite bool_decide_eq_false_2.
Qed.

Lemma runPass_failed (i : nat) (inst : Instance) (w : World) :
  instances w !! i = Some inst → is_failed (status inst) = true →
  runPass i w = w.
Proof.
  intros Hw Hx. unfold runPass. by rewrite Hw, Hx.
Qed.

(** A handler of instance [i] run in a world with nothing queued, and
    the turn that follows: one pass of [i] over the queued requests. *)
Lemma turn_runHandler_own (i : nat) (h : Handler) (inst : Instance) (w : World) :
  h ≠ [] →
  Forall (fun r => ref_inst (target r) = i) h →
  instances w !! i = Some inst →
  is_failed (status inst) = false →
  inFlight inst = false →
  renderQueue w = [] →
  turn (runHandler h w) =
  runPass i {| instances := <[i := queued h inst]> (instances w);
               renderQueue := []; rand := rand w |}.
Proof.
  intros Hne Hall Hw Hst Hfl Hq.
  rewrite (runHandler_own i h inst w) by done.
  rewrite Hq. reflexivity.
Qed.

Lemma fire_handler (i : nat) (path : list nat) (name : string) (e : Event)
    (inst : Instance) (out : Element) (hf : Event -> Handler) (w : World) :
  instances w !! i = Some inst →
  output inst = Some out →
  handler_at path name out = Some hf →
  fire i path name e w = turn (runHandler (hf e) w).
Proof.
  intros Hw Ho Hh. unfold fire, dispatch. by rewrite Hw, Ho, Hh.
Qed.

Lemma fire_no_handler (i : nat) (path : list nat) (name : string) (e : Event)
    (inst : Instance) (out : Element) (w : World) :
  instances w !! i = Some inst →
  output inst = Some out →
  handler_at path name out = None →
  fire i path name e w = turn w.
Proof.
  intros Hw Ho Hh. unfold fire, dispatch. by rewrite Hw, Ho, Hh.
Qed.

(** A pass of a settled instance over freshly queued requests. *)
Lemma settled_pass (c : Hook Element) (i : nat) (cs : list value) (ver : nat)
    (h : Handler) (w : World) (cs' : list value) (r : RandState) :
  h ≠ [] →
  Forall (fun r => ref_inst (target r) = i) h →
  instances w !! i = Some (settled c i cs ver) →
  renderQueue w = [] →
  commitPendingUpdates (map (fun r => (ref_index (target r), payload r)) h)
                       cs (rand w) = (cs', r) →
  rc_cells (c (beginRender i cs')).2 = cs' →
  rc_cursor (c (beginRender i cs')).2 = length cs →
  length cs' = length cs →
  turn (runHandler h w) =
  {| instances := <[i := settled c i cs' (S ver)]> (instances w);
     renderQueue := []; rand := r |}.
Proof.
  intros Hne Hall Hw Hq Hc Hcells Hcur Hlen.
  rewrite (turn_runHandler_own i h _ w Hne Hall Hw eq_refl eq_refl Hq).
  destruct (c (beginRender i cs')) as [out ctx] eqn:Hb. simpl in *.
  erewrite runPass_ok; [ | apply lookup_insert_eq | done | exact Hc | exact Hb | ].
  - simpl. rewrite insert_insert_eq. unfold settled.
    rewrite Hb, Hcells, Hcur, Hlen. reflexivity.
  - right. simpl. by rewrite Hcur.
Qed.

(** ** The todo list *)

Lemma Todo_handlers (i : nat) (l : list todo) (s : string) :
  let out := (Todo (beginRender i (todoCells l s))).1 in
  handler_at submit_path "onClick" out =
    Some (fun _ => handleSubmit (setterOf {| ref_inst := i; ref_index := 0 |})
                                (setterOf {| ref_inst := i; ref_index := 1 |}) s)
  ∧ handler_at input_path "onChange" out =
    Some (fun e => [ setterOf {| ref_inst := i; ref_index := 1 |}
                       (SetTo (target_value e)) ]).
Proof. split; reflexivity. Qed.

Lemma Todo_remove_handler (i : nat) (l : list todo) (s : string) (k : nat) (t : todo) :
  l !! k = Some t →
  handler_at (remove_path k) "onClick" (Todo (beginRender i (todoCells l s))).1 =
    Some (fun _ => removeTodo (setterOf {| ref_inst := i; ref_index := 0 |}) (id t)).
Proof.
  intros Hk. unfold handler_at, remove_path, Todo, useState, todoCells.
  unfold mbind, State_bind, mret, State_ret, nextCell. cbn -[fmap].
  rewrite list_lookup_fmap, Hk. reflexivity.
Qed.

Lemma submit_settled (i : nat) (l : list todo) (s : string) (ver : nat)
    (e : Event) (w : World) :
  instances w !! i = Some (settled Todo i (todoCells l s) ver) →
  renderQueue w = [] →
  fire i submit_path "onClick" e w =
  {| instances :=
       <[i := settled Todo i
                (todoCells (l ++ [ {| text := s;
                                      id := idOfDraw (oracle (rand w)) (calls (rand w)) |} ])
                           "")
                (S ver)]> (instances w);
     renderQueue := [];
     rand := {| oracle := oracle (rand w); calls := S (calls (rand w)) |} |}.
Proof.
  intros Hw Hq.
  erewrite fire_handler; [ | exact Hw | reflexivity | apply Todo_handlers ].
  eapply settled_pass; try done.
  - repeat constructor.
  - cbn. unfold mbind, State_bind. rewrite generateId_run. reflexivity.
Qed.

Lemma change_settled (i : nat) (l : list todo) (s : string) (ver : nat)
    (e : Event) (w : World) :
  instances w !! i = Some (settled Todo i (todoCells l s) ver) →
  renderQueue w = [] →
  fire i input_path "onChange" e w =
  {| instances :=
       <[i := settled Todo i (todoCells l (target_value e)) (S ver)]> (instances w);
     renderQueue := []; rand := rand w |}.
Proof.
  intros Hw Hq.
  erewrite fire_handler; [ | exact Hw | reflexivity | apply Todo_handlers ].
  eapply settled_pass; try done.
  repeat constructor.
Qed.

Lemma removeItem_settled (i : nat) (l : list todo) (s : string) (ver : nat)
    (idv : string) (w : World) :
  instances w !! i = Some (settled Todo i (todoCells l s) ver) →
  renderQueue w = [] →
  removeItem i idv w =
  {| instances :=
       <[i := settled Todo i (todoCells (filter (fun t => id t ≠ idv) l) s) (S ver)]>
         (instances w);
     renderQueue := []; rand := rand w |}.
Proof.
  intros Hw Hq. unfold removeItem.
  eapply settled_pass; try done.
  repeat constructor.
Qed.

Lemma mount_fresh (i : nat) (c : Hook Element) (w : World) :
  instances w !! i = None →
  mount i c w =
  let (out, ctx) := c (beginRender i []) in
  {| instances :=
       <[i := {| component := c; cells := rc_cells ctx; pending := [];
                 cellCount := Some (rc_cursor ctx); status := Clean;
                 inFlight := false; version := 1;
                 output := Some out |}]> (instances w);
     renderQueue := renderQueue w; rand := rand w |}.
Proof.
  intros Hw. unfold mount. rewrite Hw.
  destruct (c (beginRender i [])) as [out ctx] eqn:Hb.
  erewrite runPass_ok;
    [ | apply lookup_insert_eq | done | reflexivity | exact Hb | by left ].
  simpl. by rewrite insert_insert_eq.
Qed.

Lemma mount_Todo (i : nat) (w : World) :
  instances w !! i = None →
  mount i Todo w =
  {| instances := <[i := settled Todo i (todoCells [] "") 1]> (instances w);
     renderQueue := renderQueue w; rand := rand w |}.
Proof. intros Hw. by rewrite mount_fresh. Qed.

Lemma addItem_settled (i : nat) (l : list todo) (s : string) (ver : nat)
    (txt : string) (w : World) :
  instances w !! i = Some (settled Todo i (todoCells l s) ver) →
  renderQueue w = [] →
  addItem i txt w =
  {| instances :=
       <[i := settled Todo i
                (todoCells (l ++ [ {| text := txt;
                                      id := idOfDraw (oracle (rand w)) (calls (rand w)) |} ])
                           "")
                (S (S ver))]> (instances w);
     renderQueue := [];
     rand := {| oracle := oracle (rand w); calls := S (calls (rand w)) |} |}.
Proof.
  intros Hw Hq. unfold addItem.
  rewrite (change_settled i l s ver _ w Hw Hq).
  erewrite submit_settled; [ | apply lookup_insert_eq | done ].
  simpl. by rewrite insert_insert_eq.
Qed.

Lemma todos_of_settled (i : nat) (l : list todo) (s : string) (ver : nat)
    (m : gmap nat Instance) (q : list nat) (r : RandState) :
  todos_of i {| instances := <[i := settled Todo i (todoCells l s) ver]> m;
                renderQueue := q; rand := r |} = Some l.
Proof. unfold todos_of. simpl. by rewrite lookup_insert_eq. Qed.

Lemma input_of_settled (i : nat) (l : list todo) (s : string) (ver : nat)
    (m : gmap nat Instance) (q : list nat) (r : RandState) :
  input_of i {| instances := <[i := settled Todo i (todoCells l s) ver]> m;
                renderQueue := q; rand := r |} = Some s.
Proof. unfold input_of. simpl. by rewrite lookup_insert_eq. Qed.

Lemma addItems_cons (i : nat) (t : string) (txts : list string) (w : World) :
  addItems i (t :: txts) w = addItems i txts (addItem i t w).
Proof. reflexivity. Qed.

Lemma addItems_settled (i : nat) (txts : list string) :
  ∀ (l : list todo) (s : string) (ver : nat) (w : World),
  instances w !! i = Some (settled Todo i (todoCells l s) ver) →
  renderQueue w = [] →
  txts ≠ [] →
  addItems i txts w =
  {| instances :=
       <[i := settled Todo i
                (todoCells (l ++ records (oracle (rand w)) (calls (rand w)) txts) "")
                (ver + 2 * length txts)]> (instances w);
     renderQueue := [];
     rand := {| oracle := oracle (rand w);
                calls := calls (rand w) + length txts |} |}.
Proof.
  induction txts as [|t txts IH]; intros l s ver w Hw Hq Hne; [done|].
  rewrite addItems_cons, (addItem_settled i l s ver t w Hw Hq).
  destruct txts as [|t' txts].
  - simpl. f_equal; [ f_equal; f_equal; lia | f_equal; lia ].
  - erewrite IH; [ | apply lookup_insert_eq | done | done ].
    cbn [instances renderQueue rand oracle calls].
    rewrite insert_insert_eq. unfold records.
    cbn [length seq zip_with]. rewrite <- app_assoc.
    cbn [app]. f_equal; [ f_equal; f_equal; lia | f_equal; lia ].
Qed.

(** *** Every state of a mounted [Todo] is a settled one *)

Lemma Todo_output (i : nat) (l : list todo) (s : string) :
  (Todo (beginRender i (todoCells l s))).1 =
  let setTodos : SetterArg (list todo) -> UpdateRequest :=
    setterOf {| ref_inst := i; ref_index := 0 |} in
  let setInput : SetterArg string -> UpdateRequest :=
    setterOf {| ref_inst := i; ref_index := 1 |} in
  El "div" [] [
    El "input"
       [ ("type", PStr "text"); ("value", PStr s);
         ("placeholder", PStr "New Todo");
         ("onChange", POn (fun e => [ setInput (SetTo (target_value e)) ])) ]
       [];
    El "button"
       [ ("onClick", POn (fun e => handleSubmit setTodos setInput s)) ]
       [ Txt "Submit" ];
    El "ul" []
       ((fun t =>
          El "li" [ ("key", PStr (id t)) ] [
            El "span" [] [ Txt (text t) ];
            El "button" [ ("onClick", POn (fun e => removeTodo setTodos (id t))) ]
               [ Txt "x" ] ])
        <$> l) ].
Proof. reflexivity. Qed.

Lemma no_handler_below_text (path : list nat) (name : string) (tx : string) :
  match element_at path (Txt tx) with
  | Some el =>
      match find_prop name (props_of el) with
      | Some (POn h) => Some h
      | _ => None
      end
  | None => None
  end = None.
Proof. destruct path as [|k path]; [done|]. by destruct k. Qed.

Lemma Todo_handler_cases (i : nat) (l : list todo) (s : string)
    (path : list nat) (name : string) (hf : Event -> Handler) :
  handler_at path name (Todo (beginRender i (todoCells l s))).1 = Some hf →
  hf = (fun e => [ setterOf {| ref_inst := i; ref_index := 1 |}
                     (SetTo (target_value e)) ])
  ∨ hf = (fun _ => handleSubmit (setterOf {| ref_inst := i; ref_index := 0 |})
                                (setterOf {| ref_inst := i; ref_index := 1 |}) s)
  ∨ ∃ t, t ∈ l
         ∧ hf = (fun _ => removeTodo (setterOf {| ref_inst := i; ref_index := 0 |})
                                     (id t)).
Proof.
  unfold handler_at. rewrite Todo_output. cbv zeta. intros Hh.
  destruct path as [|[|[|[|c]]] rest]; cbn -[String.eqb fmap] in Hh;
    try discriminate.
  - (* the input *)
    destruct rest as [|c rest]; cbn -[String.eqb fmap] in Hh;
      [|destruct c; discriminate].
    destruct (String.eqb "onChange" name);
      [|destruct (String.eqb "placeholder" name), (String.eqb "value" name),
                 (String.eqb "type" name); discriminate].
    injection Hh as <-. by left.
  - (* the Submit button *)
    destruct rest as [|[|c] rest]; cbn -[String.eqb fmap] in Hh;
      try discriminate.
    + destruct (String.eqb "onClick" name); [|discriminate].
      injection Hh as <-. right. by left.
    + by rewrite no_handler_below_text in Hh.
  - (* the list *)
    destruct rest as [|k rest]; cbn -[String.eqb fmap] in Hh; [discriminate|].
    rewrite list_lookup_fmap in Hh.
    destruct (l !! k) as [t|] eqn:Hk; cbn -[String.eqb] in Hh;
      [|discriminate].
    destruct rest as [|[|[|c]] rest]; cbn -[String.eqb] in Hh;
      try discriminate.
    + destruct (String.eqb "key" name); discriminate.
    + destruct rest as [|[|c] rest]; cbn -[String.eqb] in Hh;
        try discriminate.
      by rewrite no_handler_below_text in Hh.
    + destruct rest as [|[|c] rest]; cbn -[String.eqb] in Hh;
        try discriminate.
      * destruct (String.eqb "onClick" name); [|discriminate].
        injection Hh as <-. right. right. exists t. split; [|done].
        by apply list_elem_of_lookup_2 in Hk.
      * by rewrite no_handler_below_text in Hh.
Qed.

Lemma fire_Todo_settled (i : nat) (l : list todo) (s : string) (ver : nat)
    (path : list nat) (name : string) (e : Event) (w : World) :
  instances w !! i = Some (settled Todo i (todoCells l s) ver) →
  renderQueue w = [] →
  ∃ l' s' ver',
    instances (fire i path name e w) !! i
      = Some (settled Todo i (todoCells l' s') ver')
    ∧ renderQueue (fire i path name e w) = [].
Proof.
  intros Hw Hq.
  destruct (handler_at path name (Todo (beginRender i (todoCells l s))).1)
    as [hf|] eqn:Hh.
  - rewrite (fire_handler i path name e _ _ hf w Hw eq_refl Hh).
    apply Todo_handler_cases in Hh as [-> | [-> | (t & _ & ->)]].
    + rewrite <- (fire_handler i input_path "onChange" e _ _ _ w Hw eq_refl
                    (proj2 (Todo_handlers i l s))).
      rewrite (change_settled i l s ver e w Hw Hq). cbn.
      rewrite lookup_insert_eq. eauto.
    + rewrite <- (fire_handler i submit_path "onClick" e _ _ _ w Hw eq_refl
                    (proj1 (Todo_handlers i l s))).
      rewrite (submit_settled i l s ver e w Hw Hq). cbn.
      rewrite lookup_insert_eq. eauto.
    + change (turn (runHandler _ w)) with (removeItem i (id t) w).
      rewrite (removeItem_settled i l s ver (id t) w Hw Hq). cbn.
      rewrite lookup_insert_eq. eauto.
  - rewrite (fire_no_handler i path name e _ _ w Hw eq_refl Hh).
    rewrite turn_idle by done. eauto.
Qed.

(** Whatever events are fired at a freshly mounted [Todo], it is found
    between passes with some list and some input text. *)
Lemma Todo_reachable (o : nat -> Draw) (i : nat)
    (evs : list (list nat * string * Event)) :
  let w := foldl (fun w' ev => fire i ev.1.1 ev.1.2 ev.2 w')
                 (mount i Todo (emptyWorld o)) evs in
  ∃ l s ver, instances w !! i = Some (settled Todo i (todoCells l s) ver)
             ∧ renderQueue w = [].
Proof.
  cbv zeta.
  assert (H0 : ∃ l s ver,
            instances (mount i Todo (emptyWorld o)) !! i
              = Some (settled Todo i (todoCells l s) ver)
            ∧ renderQueue (mount i Todo (emptyWorld o)) = []).
  { rewrite mount_Todo by done. cbn. rewrite lookup_insert_eq. eauto. }
  revert H0. generalize (mount i Todo (emptyWorld o)).
  induction evs as [|[[path name] e] evs IH]; intros w H0; [done|].
  destruct H0 as (l & s & ver & Hw & Hq).
  simpl. apply IH. by apply (fire_Todo_settled i l s ver).
Qed.

(** *** What [filter] does to the list *)

Lemma filter_id_absent (idv : string) (l : list todo) :
  idv ∉ id <$> l → filter (fun t => id t ≠ idv) l = l.
Proof.
  induction l as [|t l IH]; intros Hn; [done|].
  rewrite fmap_cons, not_elem_of_cons in Hn. destruct Hn as [Ht Hl].
  rewrite filter_cons_True by done. by rewrite IH.
Qed.

Lemma filter_id_unique (idv : string) (l : list todo) :
  ∀ (k : nat) (t : todo),
  l !! k = Some t → id t = idv →
  (∀ k' t', l !! k' = Some t' → id t' = idv → k' = k) →
  filter (fun t' => id t' ≠ idv) l = delete k l.
Proof.
  induction l as [|a l IH]; intros k t Hk Ht Hu; [done|].
  destruct k as [|k]; simpl in Hk.
  - injection Hk as ->.
    rewrite filter_cons_False by (intros Hc; by apply Hc).
    simpl. apply filter_id_absent.
    intros Hin. apply list_elem_of_fmap in Hin as (t' & Ht' & Hin).
    apply list_elem_of_lookup in Hin as [k' Hk'].
    specialize (Hu (S k') t' Hk' (eq_sym Ht')). discriminate.
  - rewrite filter_cons_True.
    + simpl. f_equal. apply (IH k t Hk Ht).
      intros k' t' Hk' Ht'. specialize (Hu (S k') t' Hk' Ht'). lia.
    + intros Ha. specialize (Hu 0 a eq_refl Ha). discriminate.
Qed.

Lemma records_length (o : nat -> Draw) (c : nat) (txts : list string) :
  length (records o c txts) = length txts.
Proof.
  unfold records. rewrite length_zip_with, length_seq. lia.
Qed.

Lemma records_text (o : nat -> Draw) (txts : list string) :
  ∀ c, text <$> records o c txts = txts.
Proof.
  unfold records. induction txts as [|t txts IH]; intros c; [done|].
  simpl. f_equal. apply IH.
Qed.

Lemma records_id (o : nat -> Draw) (txts : list string) :
  ∀ c, id <$> records o c txts = idOfDraw o <$> seq c (length txts).
Proof.
  unfold records. induction txts as [|t txts IH]; intros c; [done|].
  simpl. f_equal. apply IH.
Qed.

Lemma records_NoDup (o : nat -> Draw) (c : nat) (txts : list string) :
  NoDup ((fun k => substring 0 9 (o k)) <$> seq c (length txts)) →
  NoDup (id <$> records o c txts).
Proof.
  intros Hnd. rewrite records_id.
  change (idOfDraw o) with ((fun s => "_" +:+ s) ∘ (fun k => substring 0 9 (o k))).
  rewrite list_fmap_compose. apply NoDup_fmap_2; [|done].
  intros s1 s2 Heq. by injection Heq.
Qed.

(** *** Adding *)

(** C1, as the claim states it, fails: a text that is empty after
    trimming is added like any other.  On a freshly mounted list,
    [addItem("   ")] makes the list one record longer. *)
Lemma addItem_blank_counterexample :
  let w := mount 0 Todo (emptyWorld (fun _ => "")) in
  trim "   " = ""
  ∧ todos_of 0 w = Some []
  ∧ todos_of 0 (addItem 0 "   " w) = Some [ {| text := "   "; id := "_" |} ]
  ∧ todos_of 0 (addItem 0 "   " w) ≠ todos_of 0 w.
Proof. vm_compute. split_and!; try reflexivity. discriminate. Qed.

(** C1, amended: [handleSubmit] has no guard on the text.  A call of
    [addItem] with a text that is empty after trimming appends one
    record carrying that text to the end of the list, whose length
    grows by exactly 1. *)
Theorem addItem_blank_appends (i : nat) (l : list todo) (s : string) (ver : nat)
    (txt : string) (w : World) :
  instances w !! i = Some (settled Todo i (todoCells l s) ver) →
  renderQueue w = [] →
  trim txt = "" →
  ∃ l', todos_of i (addItem i txt w) = Some l'
        ∧ l' = l ++ [ {| text := txt;
                         id := idOfDraw (oracle (rand w)) (calls (rand w)) |} ]
        ∧ length l' = S (length l).
Proof.
  intros Hw Hq _. rewrite (addItem_settled i l s ver txt w Hw Hq).
  rewrite todos_of_settled. eexists; split_and!; [done..|].
  rewrite length_app. simpl. lia.
Qed.

Lemma addItem_blank_appends_witness :
  let w := mount 0 Todo (emptyWorld (fun _ => "")) in
  trim "   " = ""
  ∧ ∃ l', todos_of 0 (addItem 0 "   " w) = Some l'
          ∧ l' = [] ++ [ {| text := "   "; id := idOfDraw (fun _ => "") 0 |} ]
          ∧ length l' = 1.
Proof.
  split; [reflexivity|].
  apply (addItem_blank_appends 0 [] "" 1 "   "
           (mount 0 Todo (emptyWorld (fun _ => "")))); reflexivity.
Defined.

(** C8: besides appending the record, [handleSubmit] writes to a second
    cell: its last setter call targets the input cell, and after the
    pass that cell holds the empty string, whatever it held before. *)
Theorem handleSubmit_resets_input (i : nat) (l : list todo) (s : string)
    (ver : nat) (e : Event) (w : World) :
  instances w !! i = Some (settled Todo i (todoCells l s) ver) →
  renderQueue w = [] →
  let w' := fire i submit_path "onClick" e w in
  input_of i w = Some s
  ∧ input_of i w' = Some ""
  ∧ todos_of i w' =
      Some (l ++ [ {| text := s;
                      id := idOfDraw (oracle (rand w)) (calls (rand w)) |} ])
  ∧ last (handleSubmit (setterOf {| ref_inst := i; ref_index := 0 |})
                       (setterOf {| ref_inst := i; ref_index := 1 |}) s)
    = Some {| target := {| ref_inst := i; ref_index := 1 |};
              payload := NewValue (VStr "") |}.
Proof.
  intros Hw Hq w'. subst w'. rewrite (submit_settled i l s ver e w Hw Hq).
  rewrite input_of_settled, todos_of_settled.
  split_and!; try done.
  unfold input_of. by rewrite Hw.
Qed.

Lemma handleSubmit_resets_input_witness :
  let w := fire 0 input_path "onChange" {| target_value := "buy milk" |}
             (mount 0 Todo (emptyWorld (fun _ => "4fzyo82mvyr"))) in
  input_of 0 w = Some "buy milk"
  ∧ input_of 0 (fire 0 submit_path "onClick" click w) = Some ""
  ∧ todos_of 0 (fire 0 submit_path "onClick" click w) =
      Some [ {| text := "buy milk"; id := "_4fzyo82mv" |} ].
Proof.
  pose proof (handleSubmit_resets_input 0 [] "buy milk" 2 click
    (fire 0 input_path "onChange" {| target_value := "buy milk" |}
       (mount 0 Todo (emptyWorld (fun _ => "4fzyo82mvyr"))))
    eq_refl eq_refl) as (H1 & H2 & H3 & _).
  split_and!; [exact H1 | exact H2 | exact H3].
Defined.

(** *** Removing *)

(** C2, as the claim states it, fails on a list in which two records
    carry one id (two draws of the random source that agree): removing
    that id takes both records away, not only the first, and the
    length drops by 2. *)
Lemma removeItem_duplicate_ids_counterexample :
  let w := addItems 0 ["a"; "b"] (mount 0 Todo (emptyWorld (fun _ => "abc"))) in
  todos_of 0 w = Some [ {| text := "a"; id := "_abc" |};
                        {| text := "b"; id := "_abc" |} ]
  ∧ todos_of 0 (removeItem 0 "_abc" w) = Some []
  ∧ todos_of 0 (fire 0 (remove_path 0) "onClick" click w) = Some [].
Proof. vm_compute. split_and!; reflexivity. Qed.

(** C2, amended: [removeTodo] filters.  For every list and every id,
    [removeItem(id)] keeps, in order, exactly the records whose id
    differs; if no record has the id the list is unchanged; if exactly
    one record has it, that record alone is removed and the length
    drops by exactly 1.  The button of the [k]-th item calls
    [removeItem] with the id of the [k]-th record. *)
Theorem removeItem_filters (i : nat) (l : list todo) (s : string) (ver : nat)
    (idv : string) (w : World) :
  instances w !! i = Some (settled Todo i (todoCells l s) ver) →
  renderQueue w = [] →
  let w' := removeItem i idv w in
  todos_of i w' = Some (filter (fun t => id t ≠ idv) l)
  ∧ input_of i w' = Some s
  ∧ (idv ∉ id <$> l → todos_of i w' = Some l)
  ∧ (∀ k t, l !! k = Some t → id t = idv →
       (∀ k' t', l !! k' = Some t' → id t' = idv → k' = k) →
       todos_of i w' = Some (delete k l)
       ∧ S (length (delete k l)) = length l)
  ∧ (∀ k t e, l !! k = Some t →
       fire i (remove_path k) "onClick" e w = removeItem i (id t) w).
Proof.
  intros Hw Hq w'. subst w'. rewrite (removeItem_settled i l s ver idv w Hw Hq).
  rewrite input_of_settled, todos_of_settled.
  split_and!; try done.
  - intros Hn. by rewrite filter_id_absent.
  - intros k t Hk Ht Hu. rewrite (filter_id_unique idv l k t Hk Ht Hu).
    split; [done|]. rewrite length_delete by eauto.
    apply lookup_lt_Some in Hk. lia.
  - intros k t e Hk.
    erewrite fire_handler;
      [ | exact Hw | reflexivity | by apply Todo_remove_handler ].
    reflexivity.
Qed.

Lemma removeItem_filters_witness :
  let w := addItems 0 ["a"; "b"] (mount 0 Todo (emptyWorld (fun k => match k with 0 => "abc" | _ => "xyz" end))) in
  todos_of 0 (removeItem 0 "_abc" w) = Some [ {| text := "b"; id := "_xyz" |} ]
  ∧ todos_of 0 (removeItem 0 "_none" w) =
      Some [ {| text := "a"; id := "_abc" |}; {| text := "b"; id := "_xyz" |} ].
Proof.
  pose (w := addItems 0 ["a"; "b"] (mount 0 Todo (emptyWorld (fun k => match k with 0 => "abc" | _ => "xyz" end)))).
  split.
  - exact (proj1 (removeItem_filters 0
      [ {| text := "a"; id := "_abc" |}; {| text := "b"; id := "_xyz" |} ]
      "" 5 "_abc" w eq_refl eq_refl)).
  - exact (proj1 (removeItem_filters 0
      [ {| text := "a"; id := "_abc" |}; {| text := "b"; id := "_xyz" |} ]
      "" 5 "_none" w eq_refl eq_refl)).
Defined.

(** *** Sequences of additions *)

(** C4, as the claim states it, fails where it promises distinct ids:
    the ids come from [Math.random()], and two draws that agree (here
    0.5 twice, ["0.i"] in radix 36) give the two records one id;
    removing the id of "buy milk" then empties the list. *)
Lemma addItems_colliding_ids_counterexample :
  let w := addItems 0 ["buy milk"; "walk dog"]
             (mount 0 Todo (emptyWorld (fun _ => "i"))) in
  Forall (fun t => trim t ≠ "") ["buy milk"; "walk dog"]
  ∧ todos_of 0 w = Some [ {| text := "buy milk"; id := "_i" |};
                          {| text := "walk dog"; id := "_i" |} ]
  ∧ ¬ NoDup ["_i"; "_i"]
  ∧ todos_of 0 (removeItem 0 "_i" w) = Some [].
Proof.
  split_and!.
  - repeat constructor; vm_compute; discriminate.
  - vm_compute. reflexivity.
  - intros Hnd. apply NoDup_cons in Hnd as [Hn _]. apply Hn. by left.
  - vm_compute. reflexivity.
Qed.

(** C4, amended: for every sequence of [addItem] calls whose texts are
    non-empty after trimming, starting from the empty list, the list
    has as many records as there were calls, in call order, the [k]-th
    carrying the text of the [k]-th call and the id [generateId] made
    of the [k]-th draw.  The ids are pairwise distinct whenever the
    first nine radix-36 digits of the draws are.  In particular
    "buy milk" then "walk dog" yields these two records in this order,
    and when their ids differ removing the id of "buy milk" leaves
    "walk dog" alone. *)
Theorem addItems_in_call_order (o : nat -> Draw) (i : nat) (txts : list string) :
  Forall (fun t => trim t ≠ "") txts →
  let w := addItems i txts (mount i Todo (emptyWorld o)) in
  todos_of i w = Some (records o 0 txts)
  ∧ length (records o 0 txts) = length txts
  ∧ text <$> records o 0 txts = txts
  ∧ id <$> records o 0 txts = idOfDraw o <$> seq 0 (length txts)
  ∧ (NoDup ((fun k => substring 0 9 (o k)) <$> seq 0 (length txts)) →
     NoDup (id <$> records o 0 txts))
  ∧ (txts = ["buy milk"; "walk dog"] →
     todos_of i w = Some [ {| text := "buy milk"; id := idOfDraw o 0 |};
                           {| text := "walk dog"; id := idOfDraw o 1 |} ]
     ∧ (idOfDraw o 0 ≠ idOfDraw o 1 →
        todos_of i (removeItem i (idOfDraw o 0) w) =
          Some [ {| text := "walk dog"; id := idOfDraw o 1 |} ])).
Proof.
  intros _ w.
  assert (Hm : mount i Todo (emptyWorld o) =
               {| instances := <[i := settled Todo i (todoCells [] "") 1]> ∅;
                  renderQueue := []; rand := {| oracle := o; calls := 0 |} |})
    by (by rewrite mount_Todo).
  assert (Hw : ∃ ver,
            w = {| instances := <[i := settled Todo i (todoCells (records o 0 txts) "") ver]> ∅;
                   renderQueue := [];
                   rand := {| oracle := o; calls := length txts |} |}).
  { subst w. rewrite Hm. destruct txts as [|t txts]; [by exists 1|].
    erewrite addItems_settled; [ | apply lookup_insert_eq | done | done ].
    simpl. rewrite insert_insert_eq. eauto. }
  destruct Hw as [ver Hw].
  split_and!.
  - rewrite Hw. apply todos_of_settled.
  - apply records_length.
  - apply records_text.
  - apply records_id.
  - apply records_NoDup.
  - intros ->. split; [rewrite Hw; apply todos_of_settled|].
    intros Hne. rewrite Hw.
    erewrite removeItem_settled; [ | apply lookup_insert_eq | done ].
    rewrite todos_of_settled. unfold records. simpl.
    rewrite filter_cons_False by (intros Hc; by apply Hc).
    rewrite filter_cons_True by (simpl; congruence).
    reflexivity.
Qed.

Lemma addItems_in_call_order_witness :
  let o := fun k => match k with 0 => "4fzyo82mvyr" | _ => "i" end in
  let w := addItems 0 ["buy milk"; "walk dog"] (mount 0 Todo (emptyWorld o)) in
  todos_of 0 w = Some [ {| text := "buy milk"; id := "_4fzyo82mv" |};
                        {| text := "walk dog"; id := "_i" |} ]
  ∧ todos_of 0 (removeItem 0 "_4fzyo82mv" w) =
      Some [ {| text := "walk dog"; id := "_i" |} ].
Proof.
  intros o w.
  assert (Hne : Forall (fun t => trim t ≠ "") ["buy milk"; "walk dog"])
    by (repeat constructor; vm_compute; discriminate).
  destruct (addItems_in_call_order o 0 ["buy milk"; "walk dog"] Hne)
    as (_ & _ & _ & _ & _ & H).
  destruct (H eq_refl) as [H1 H2].
  split; [exact H1|].
  apply H2. vm_compute. discriminate.
Defined.

(** ** The hover hook *)

Lemma Info_spreads_attrs (a b : string) (i : nat) (h : bool) (name : string) :
  name = "onMouseOver" ∨ name = "onMouseOut" →
  handler_at svg_path name (Info a b (beginRender i [VBool h])).1 =
  match find_prop name (useHover (beginRender i [VBool h])).1.2 with
  | Some (POn hf) => Some hf
  | _ => None
  end.
Proof. intros [-> | ->]; reflexivity. Qed.

Lemma hover_settled (a b : string) (i : nat) (h : bool) (ver : nat)
    (ev : HoverEvent) (w : World) :
  instances w !! i = Some (settled (Info a b) i [VBool h] ver) →
  renderQueue w = [] →
  hover i ev w =
  {| instances :=
       <[i := settled (Info a b) i [VBool (is_enter ev)] (S ver)]> (instances w);
     renderQueue := []; rand := rand w |}.
Proof.
  intros Hw Hq. unfold hover.
  destruct ev.
  - erewrite fire_handler; [ | exact Hw | reflexivity | reflexivity ].
    eapply settled_pass; try done. repeat constructor.
  - erewrite fire_handler; [ | exact Hw | reflexivity | reflexivity ].
    eapply settled_pass; try done. repeat constructor.
Qed.

Lemma hover_unmounted (i : nat) (ev : HoverEvent) (w : World) :
  instances w !! i = None → renderQueue w = [] → hover i ev w = w.
Proof.
  intros Hw Hq. unfold hover, fire, dispatch. rewrite Hw. by apply turn_idle.
Qed.

Lemma hovering_of_settled (a b : string) (i : nat) (h : bool) (ver : nat)
    (m : gmap nat Instance) (q : list nat) (r : RandState) :
  hovering_of i {| instances := <[i := settled (Info a b) i [VBool h] ver]> m;
                   renderQueue := q; rand := r |} = Some h.
Proof. unfold hovering_of. simpl. by rewrite lookup_insert_eq. Qed.

(** C5: in an instance that uses the hover hook, the handlers the hook
    returned are the ones bound to the element; after the enter handler
    the next pass reports [hovering] as true, after the leave handler
    as false, and entering twice in a row still gives true. *)
Theorem useHover_enter_leave (a b : string) (i : nat) (h : bool) (ver : nat)
    (w : World) :
  instances w !! i = Some (settled (Info a b) i [VBool h] ver) →
  renderQueue w = [] →
  hovering_of i w = Some h
  ∧ hovering_of i (hover i Enter w) = Some true
  ∧ hovering_of i (hover i Leave w) = Some false
  ∧ hovering_of i (hover i Enter (hover i Enter w)) = Some true
  ∧ hovering_of i (hover i Leave (hover i Enter w)) = Some false
  ∧ hover i Enter (hover i Enter w) =
      {| instances :=
           <[i := settled (Info a b) i [VBool true] (S (S ver))]> (instances w);
         renderQueue := []; rand := rand w |}
  ∧ (∀ name, name = "onMouseOver" ∨ name = "onMouseOut" →
       handler_at svg_path name (Info a b (beginRender i [VBool h])).1 =
       match find_prop name (useHover (beginRender i [VBool h])).1.2 with
       | Some (POn hf) => Some hf
       | _ => None
       end).
Proof.
  intros Hw Hq.
  assert (He : ∀ ev ev',
    hover i ev' (hover i ev w) =
    {| instances :=
         <[i := settled (Info a b) i [VBool (is_enter ev')] (S (S ver))]> (instances w);
       renderQueue := []; rand := rand w |}).
  { intros ev ev'. rewrite (hover_settled a b i h ver ev w Hw Hq).
    erewrite hover_settled; [ | apply lookup_insert_eq | done ].
    simpl. by rewrite insert_insert_eq. }
  rewrite !He, !(hover_settled a b i h ver _ w Hw Hq), !hovering_of_settled.
  split_and!; try done.
  - unfold hovering_of. by rewrite Hw.
  - apply Info_spreads_attrs.
Qed.

Lemma useHover_enter_leave_witness :
  let w := mount 3 (Info "tip" "16") (emptyWorld (fun _ => "")) in
  hovering_of 3 w = Some false
  ∧ hovering_of 3 (hover 3 Enter w) = Some true
  ∧ hovering_of 3 (hover 3 Leave w) = Some false
  ∧ hovering_of 3 (hover 3 Enter (hover 3 Enter w)) = Some true.
Proof.
  destruct (useHover_enter_leave "tip" "16" 3 false 1
              (mount 3 (Info "tip" "16") (emptyWorld (fun _ => "")))
              eq_refl eq_refl) as (H0 & H1 & H2 & H3 & _).
  split_and!; [exact H0 | exact H1 | exact H2 | exact H3].
Defined.

(** *** Instances do not see each other *)

Lemma settled_same (c c' : Hook Element) (i : nat) (cs cs' : list value)
    (ver ver' : nat) :
  settled c i cs ver = settled c' i cs' ver' → c = c' ∧ ver = ver'.
Proof. intros H. by injection H. Qed.

Lemma hover_world_step (k : nat) (ev : HoverEvent) (w : World) :
  hover_world w →
  hover_world (hover k ev w)
  ∧ (∀ j, j ≠ k → instances (hover k ev w) !! j = instances w !! j)
  ∧ (∀ inst, instances w !! k = Some inst →
       ∃ a b h ver, inst = settled (Info a b) k [VBool h] ver
                    ∧ instances (hover k ev w) !! k =
                        Some (settled (Info a b) k [VBool (is_enter ev)] (S ver))).
Proof.
  intros [Hq Hall].
  destruct (instances w !! k) as [inst|] eqn:Hk.
  - destruct (Hall k inst Hk) as (a & b & h & ver & ->).
    rewrite (hover_settled a b k h ver ev w Hk Hq).
    split_and!.
    + split; [done|]. simpl. intros j inst' Hj.
      destruct (decide (k = j)) as [<-|Hne].
      * rewrite lookup_insert_eq in Hj. injection Hj as <-. eauto.
      * rewrite lookup_insert_ne in Hj by done. eauto.
    + intros j Hne. simpl. by rewrite lookup_insert_ne.
    + intros inst' [= <-]. exists a, b, h, ver. split; [done|].
      simpl. by rewrite lookup_insert_eq.
  - rewrite (hover_unmounted k ev w Hk Hq).
    split_and!; [done | done | intros inst' Hc; discriminate].
Qed.

Lemma play_cons (e : nat * HoverEvent) (evs : list (nat * HoverEvent)) (w : World) :
  play (e :: evs) w = play evs (hover e.1 e.2 w).
Proof. reflexivity. Qed.

Lemma play_projection (j : nat) (evs : list (nat * HoverEvent)) :
  ∀ w w' : World,
  hover_world w → hover_world w' →
  instances w !! j = instances w' !! j →
  instances (play evs w) !! j =
  instances (play (filter (fun e => e.1 = j) evs) w') !! j.
Proof.
  induction evs as [|[k ev] evs IH]; intros w w' Hw Hw' Hj; [done|].
  rewrite play_cons. simpl fst; simpl snd.
  destruct (hover_world_step k ev w Hw) as (Hw1 & Hother & Hsame).
  destruct (decide (k = j)) as [->|Hne].
  - rewrite filter_cons_True by done. rewrite play_cons. simpl fst; simpl snd.
    destruct (hover_world_step j ev w' Hw') as (Hw1' & _ & Hsame').
    apply IH; [done..|].
    destruct (instances w !! j) as [inst|] eqn:Hi.
    + destruct (Hsame inst eq_refl) as (a & b & h & ver & -> & ->).
      destruct (Hsame' _ (eq_sym Hj)) as (a' & b' & h' & ver' & Heq & ->).
      apply settled_same in Heq as [-> ->]. reflexivity.
    + destruct Hw as [Hq _]. destruct Hw' as [Hq' _].
      by rewrite (hover_unmounted j ev w Hi Hq),
                 (hover_unmounted j ev w' (eq_sym Hj) Hq'), Hi.
  - rewrite filter_cons_False by done.
    apply IH; [done..|]. rewrite Hother by done. exact Hj.
Qed.

(** C6: in a world of independently mounted instances that use the
    hover hook, two runs whose events agree on instance [j] leave [j]
    the same, whatever the events of the other instances were: its
    cells, its output and the hovering value it reports. *)
Theorem hover_isolation (j : nat) (evs1 evs2 : list (nat * HoverEvent)) (w : World) :
  hover_world w →
  filter (fun e => e.1 = j) evs1 = filter (fun e => e.1 = j) evs2 →
  instances (play evs1 w) !! j = instances (play evs2 w) !! j
  ∧ hovering_of j (play evs1 w) = hovering_of j (play evs2 w).
Proof.
  intros Hw Heq.
  assert (H : instances (play evs1 w) !! j = instances (play evs2 w) !! j).
  { rewrite (play_projection j evs1 w w Hw Hw eq_refl).
    rewrite (play_projection j evs2 w w Hw Hw eq_refl).
    by rewrite Heq. }
  split; [exact H|]. unfold hovering_of. by rewrite H.
Qed.

Lemma hover_world_empty (o : nat -> Draw) : hover_world (emptyWorld o).
Proof.
  split; [done|]. intros k inst Hk. cbn in Hk. by rewrite lookup_empty in Hk.
Qed.

Lemma mount_Info (i : nat) (a b : string) (w : World) :
  instances w !! i = None →
  mount i (Info a b) w =
  {| instances := <[i := settled (Info a b) i [VBool false] 1]> (instances w);
     renderQueue := renderQueue w; rand := rand w |}.
Proof. intros Hw. by rewrite mount_fresh. Qed.

Lemma hover_world_mount (i : nat) (a b : string) (w : World) :
  hover_world w → instances w !! i = None → hover_world (mount i (Info a b) w).
Proof.
  intros [Hq Hall] Hi. rewrite mount_Info by done. split; [done|].
  intros k inst Hk. cbn in Hk.
  destruct (decide (i = k)) as [<-|Hne].
  - rewrite lookup_insert_eq in Hk. injection Hk as <-.
    by exists a, b, false, 1.
  - rewrite lookup_insert_ne in Hk by done. eauto.
Qed.

Lemma hover_isolation_witness :
  let w := mount 1 (Info "trend" "16") (mount 0 (Info "info" "16")
             (emptyWorld (fun _ => ""))) in
  hovering_of 1 (play [(0, Enter); (1, Enter); (0, Leave)] w) =
  hovering_of 1 (play [(1, Enter)] w).
Proof.
  refine (proj2 (hover_isolation 1 [(0, Enter); (1, Enter); (0, Leave)]
                   [(1, Enter)] _ _ _)).
  - apply hover_world_mount; [apply hover_world_mount|];
      [apply hover_world_empty | reflexivity | reflexivity].
  - reflexivity.
Defined.

(** ** The theme switch *)

Lemma Theme_output (i : nat) (t : string) :
  (Theme (beginRender i [VStr t])).1 =
  let setTheme : SetterArg string -> UpdateRequest :=
    setterOf {| ref_inst := i; ref_index := 0 |} in
  El "div" [ ("className", PStr t) ] [
    if String.eqb t "light"
    then El "button" [ ("onClick", POn (fun _ => [ setTheme (SetTo "dark") ])) ]
            [ Txt "🔦" ]
    else El "button" [ ("onClick", POn (fun _ => [ setTheme (SetTo "light") ])) ]
            [ Txt "💡" ] ].
Proof. reflexivity. Qed.

Lemma Theme_handler (i : nat) (t : string) (path : list nat) (name : string)
    (hf : Event -> Handler) :
  t = "light" ∨ t = "dark" →
  handler_at path name (Theme (beginRender i [VStr t])).1 = Some hf →
  ∀ e, hf e = [ {| target := {| ref_inst := i; ref_index := 0 |};
                   payload := NewValue (VStr (other_theme t)) |} ].
Proof.
  intros Ht Hh e. unfold handler_at in Hh. rewrite Theme_output in Hh.
  assert (Hb : ∀ (h : Event -> Handler) tx,
    match element_at path
            (El "div" [ ("className", PStr t) ]
                [ El "button" [ ("onClick", POn h) ] [ Txt tx ] ]) with
    | Some el =>
        match find_prop name (props_of el) with
        | Some (POn h') => Some h'
        | _ => None
        end
    | None => None
    end = Some hf → hf = h).
  { intros h tx Hp. destruct path as [|[|n] rest]; cbn -[String.eqb] in Hp.
    - destruct (String.eqb "className" name); discriminate.
    - destruct rest as [|[|c] rest]; cbn -[String.eqb] in Hp.
      + destruct (String.eqb "onClick" name); [|discriminate].
        by injection Hp as <-.
      + destruct rest; cbn in Hp; discriminate.
      + discriminate.
    - discriminate. }
  destruct Ht as [-> | ->];
    change (String.eqb "light" "light") with true in Hh;
    change (String.eqb "dark" "light") with false in Hh;
    cbv zeta iota in Hh; by rewrite (Hb _ _ Hh).
Qed.

Lemma Theme_button (i : nat) (t : string) :
  t = "light" ∨ t = "dark" →
  ∃ hf, handler_at theme_button_path "onClick" (Theme (beginRender i [VStr t])).1
        = Some hf.
Proof. intros [-> | ->]; eexists; reflexivity. Qed.

Lemma commit_theme (P : list string) :
  ∀ (t : string) (r : RandState),
  commitPendingUpdates ((fun s => (0, NewValue (VStr s))) <$> P) [VStr t] r =
  ([VStr (default t (last P))], r).
Proof.
  induction P as [|s P IH]; intros t r; [done|].
  cbn. unfold mbind, State_bind. cbn. rewrite IH, last_cons.
  by destruct (last P).
Qed.

Lemma theme_last (t : string) (P : list string) :
  Forall (fun s => s = "light" ∨ s = "dark") (t :: P) →
  default t (last P) = "light" ∨ default t (last P) = "dark".
Proof.
  intros H. destruct (last P) as [s|] eqn:Hl; simpl.
  - apply last_Some in Hl as [P' ->].
    apply Forall_cons_1 in H as [_ H]. apply Forall_app in H as [_ H].
    by apply Forall_cons_1 in H as [H _].
  - by apply Forall_cons_1 in H as [H _].
Qed.

Lemma mount_Theme (i : nat) (w : World) :
  instances w !! i = None →
  mount i Theme w =
  {| instances := <[i := settled Theme i [VStr "light"] 1]> (instances w);
     renderQueue := renderQueue w; rand := rand w |}.
Proof. intros Hw. by rewrite mount_fresh. Qed.

Lemma theme_state_mount (o : nat -> Draw) (i : nat) :
  theme_state i [] "light" (mount i Theme (emptyWorld o)).
Proof.
  rewrite mount_Theme by done. split_and!.
  - intros k Hk. cbn. by rewrite lookup_insert_ne.
  - by repeat constructor.
  - exists 1, Clean. cbn. by rewrite lookup_insert_eq.
Qed.

Lemma theme_state_pass_other (i k : nat) (P : list string) (t : string) (w : World) :
  k ≠ i → theme_state i P t w → runPass k w = w.
Proof.
  intros Hk (Hother & _). unfold runPass. by rewrite Hother.
Qed.

Lemma theme_state_pass (i : nat) (P : list string) (t : string) (w : World) :
  theme_state i P t w → theme_state i [] (default t (last P)) (runPass i w).
Proof.
  intros (Hother & Hall & ver & st & Hst & Hi).
  erewrite runPass_ok;
    [ | exact Hi | done | apply commit_theme | reflexivity | by right ].
  split_and!.
  - intros k Hk. cbn. rewrite lookup_insert_ne by done. by apply Hother.
  - constructor; [by apply theme_last | constructor].
  - exists (S ver), Clean. cbn. by rewrite lookup_insert_eq.
Qed.

Lemma theme_state_queue (i : nat) (P : list string) (t : string)
    (q : list nat) (w : World) :
  theme_state i P t w →
  theme_state i P t {| instances := instances w; renderQueue := q; rand := rand w |}.
Proof. intros H. exact H. Qed.

Lemma theme_state_passes (i : nat) (q : list nat) :
  ∀ (P : list string) (t : string) (w : World),
  theme_state i P t w →
  theme_state i (if bool_decide (i ∈ q) then [] else P)
                (if bool_decide (i ∈ q) then default t (last P) else t)
                (foldl (fun w' k => runPass k w') w q).
Proof.
  induction q as [|k q IH]; intros P t w Hw; [done|].
  simpl foldl. destruct (decide (k = i)) as [->|Hne].
  - rewrite bool_decide_eq_true_2 by set_solver.
    specialize (IH _ _ _ (theme_state_pass i P t w Hw)).
    simpl in IH. by destruct (bool_decide (i ∈ q)).
  - rewrite (theme_state_pass_other i k P t w Hne Hw).
    specialize (IH P t w Hw).
    destruct (decide (i ∈ q)) as [Hin|Hin].
    + rewrite bool_decide_eq_true_2 in IH by done.
      rewrite bool_decide_eq_true_2 by set_solver. done.
    + rewrite bool_decide_eq_false_2 in IH by done.
      rewrite bool_decide_eq_false_2; [done|].
      rewrite not_elem_of_cons. split; [congruence | done].
Qed.

Lemma theme_state_dispatch (i k : nat) (path : list nat) (name : string)
    (e : Event) (P : list string) (t : string) (w : World) :
  theme_state i P t w →
  dispatch k path name e w = w
  ∨ (theme_state i (P ++ [other_theme t]) t (dispatch k path name e w)
     ∧ i ∈ renderQueue (dispatch k path name e w)).
Proof.
  intros (Hother & Hall & ver & st & Hst & Hi). unfold dispatch.
  destruct (decide (k = i)) as [->|Hne]; [|rewrite Hother by done; by left].
  rewrite Hi. cbn [output].
  destruct (handler_at _ _ _) as [hf|] eqn:Hh; [|by left]. right.
  assert (Ht : t = "light" ∨ t = "dark") by (by apply Forall_cons_1 in Hall as [? _]).
  rewrite (Theme_handler i t path name hf Ht Hh e).
  erewrite runHandler_own;
    [ | done | by repeat constructor | exact Hi | done | done ].
  split; [split_and!|].
  - intros k Hk. cbn. rewrite lookup_insert_ne by done. by apply Hother.
  - rewrite app_comm_cons. apply Forall_app. split; [done|].
    constructor; [|constructor].
    unfold other_theme. destruct Ht as [-> | ->]; cbn; auto.
  - exists ver, Dirty. cbn. rewrite lookup_insert_eq. unfold queued. cbn.
    by rewrite fmap_app.
  - cbn. unfold enqueue. case_bool_decide; [done|].
    apply elem_of_app. right. by left.
Qed.

Lemma theme_state_run (i : nat) (sts : list Step) :
  ∀ (P : list string) (t : string) (w : World),
  theme_state i P t w → ∃ P' t', theme_state i P' t' (run sts w).
Proof.
  induction sts as [|st sts IH]; intros P t w Hw; [by exists P, t|].
  unfold run. simpl foldl. fold (run sts).
  destruct st as [k path name e|].
  - simpl step. destruct (theme_state_dispatch i k path name e P t w Hw)
      as [-> | [Hd _]]; eauto.
  - simpl step. unfold turn.
    eapply IH, theme_state_passes, (theme_state_queue i P t [] w Hw).
Qed.

Lemma theme_of_state (i : nat) (P : list string) (t : string) (w : World) :
  theme_state i P t w → theme_of i w = Some t.
Proof.
  intros (_ & _ & ver & st & _ & Hi). unfold theme_of. by rewrite Hi.
Qed.

Lemma last_snoc_default (t s : string) (P : list string) :
  default t (last (P ++ [s])) = s.
Proof. by rewrite last_snoc. Qed.

(** C10: the theme cell starts as ["light"]; in every world reached
    from the mounted component by handler invocations and scheduling
    turns, in any interleaving, it holds ["light"] or ["dark"]; and a
    click on the button followed by its turn sets it to the other of
    the two. *)
Theorem Theme_light_or_dark (o : nat -> Draw) (i : nat) (sts : list Step)
    (e : Event) :
  let w0 := mount i Theme (emptyWorld o) in
  let w := run sts w0 in
  theme_of i w0 = Some "light"
  ∧ ∃ t, theme_of i w = Some t
         ∧ (t = "light" ∨ t = "dark")
         ∧ theme_of i (fire i theme_button_path "onClick" e w)
           = Some (if String.eqb t "light" then "dark" else "light").
Proof.
  intros w0 w.
  pose proof (theme_state_mount o i) as H0. fold w0 in H0.
  split; [by apply (theme_of_state i [] "light")|].
  destruct (theme_state_run i sts [] "light" w0 H0) as (P & t & Hw). fold w in Hw.
  assert (Ht : t = "light" ∨ t = "dark").
  { destruct Hw as (_ & Hall & _). by apply Forall_cons_1 in Hall as [? _]. }
  exists t. split_and!; [by apply (theme_of_state i P) | done |].
  unfold fire.
  destruct (theme_state_dispatch i i theme_button_path "onClick" e P t w Hw)
    as [Hsame | [Hd Hin]].
  - exfalso. destruct Hw as (_ & _ & ver & st & Hst & Hi).
    destruct (Theme_button i t Ht) as [hf Hh].
    unfold dispatch in Hsame. rewrite Hi in Hsame. cbn [output] in Hsame.
    rewrite Hh, (Theme_handler i t _ _ hf Ht Hh e) in Hsame.
    erewrite runHandler_own in Hsame;
      [ | done | by repeat constructor | exact Hi | done | done ].
    apply (f_equal (fun w' => pending <$> instances w' !! i)) in Hsame.
    cbn in Hsame. rewrite lookup_insert_eq, Hi in Hsame. cbn in Hsame.
    injection Hsame as Hsame.
    apply (f_equal length) in Hsame. rewrite length_app in Hsame.
    cbn in Hsame. lia.
  - unfold turn.
    pose proof (theme_state_passes i (renderQueue (dispatch i theme_button_path "onClick" e w))
      _ _ _ (theme_state_queue i _ t [] _ Hd)) as Hp.
    rewrite bool_decide_eq_true_2 in Hp by done.
    rewrite last_snoc_default in Hp.
    by apply theme_of_state in Hp.
Qed.

(** ** Coalescing of scheduled passes *)

Lemma scheduleRender_fresh (i : nat) (inst : Instance) (w : World) :
  instances w !! i = Some inst →
  is_failed (status inst) = false →
  inFlight inst = false →
  i ∉ renderQueue w →
  scheduleRender i w =
  {| instances := <[i := queued [] inst]> (instances w);
     renderQueue := renderQueue w ++ [i]; rand := rand w |}.
Proof.
  intros Hw Hst Hfl Hq. unfold scheduleRender. rewrite Hw, Hst, Hfl.
  rewrite bool_decide_eq_false_2 by done. unfold queued. simpl.
  rewrite app_nil_r. by rewrite Hfl.
Qed.

Lemma scheduleRender_again (i : nat) (w : World) :
  scheduleRender i (scheduleRender i w) = scheduleRender i w.
Proof.
  unfold scheduleRender at 2.
  destruct (instances w !! i) as [inst|] eqn:Hw;
    [ destruct (is_failed (status inst)) eqn:Hst | ].
  - unfold scheduleRender. by rewrite Hw, Hst.
  - unfold scheduleRender. cbn [instances renderQueue rand].
    rewrite lookup_insert_eq, Hw, Hst. cbn.
    rewrite insert_insert_eq. f_equal.
    destruct (inFlight inst); [done|]. cbn.
    destruct (bool_decide (i ∈ renderQueue w)) eqn:E; rewrite ?E; [done|].
    rewrite bool_decide_eq_true_2; [done|].
    apply elem_of_app. right. by left.
  - unfold scheduleRender. by rewrite Hw.
Qed.

Lemma scheduleRender_iter (i : nat) (n : nat) (w : World) :
  Nat.iter (S n) (scheduleRender i) w = scheduleRender i w.
Proof.
  induction n as [|n IH]; [done|].
  change (Nat.iter (S (S n)) (scheduleRender i) w)
    with (scheduleRender i (Nat.iter (S n) (scheduleRender i) w)).
  by rewrite IH, scheduleRender_again.
Qed.

Lemma filter_eq_notin (i : nat) (q : list nat) :
  i ∉ q → filter (fun k => k = i) q = [].
Proof.
  induction q as [|k q IH]; intros Hq; [done|].
  apply not_elem_of_cons in Hq as [Hne Hq].
  rewrite filter_cons_False by congruence. by apply IH.
Qed.

Lemma runPass_counts (i : nat) (inst : Instance) (w : World) :
  instances w !! i = Some inst →
  is_failed (status inst) = false →
  ∃ inst', instances (runPass i w) !! i = Some inst'
           ∧ version inst' = S (version inst)
           ∧ status inst' ≠ Dirty.
Proof.
  intros Hw Hf. unfold runPass. rewrite Hw, Hf.
  destruct (commitPendingUpdates _ _ _) as [cs r].
  destruct (component inst _) as [out ctx].
  cbn. rewrite lookup_insert_eq.
  destruct (match cellCount inst with Some m => bool_decide (m = rc_cursor ctx)
                                    | None => true end); eauto.
Qed.

(** C7: on a mounted, clean instance with no pass queued or in flight,
    two or more calls of [scheduleRender] before the next turn leave
    the world exactly as one call does: the instance is dirty, one pass
    of it is queued, and the turn executes exactly one pass of it (its
    render version grows by 1), after which it is dirty no more. *)
Theorem scheduleRender_coalesces (i : nat) (inst : Instance) (n : nat) (w : World) :
  instances w !! i = Some inst →
  status inst = Clean →
  inFlight inst = false →
  i ∉ renderQueue w →
  let w' := Nat.iter (S (S n)) (scheduleRender i) w in
  w' = scheduleRender i w
  ∧ renderQueue w' = renderQueue w ++ [i]
  ∧ length (filter (fun k => k = i) (renderQueue w')) = 1
  ∧ (status <$> instances w' !! i) = Some Dirty
  ∧ ∃ inst', instances (turn w') !! i = Some inst'
             ∧ version inst' = S (version inst)
             ∧ status inst' ≠ Dirty.
Proof.
  intros Hw Hd Hfl Hq w'. subst w'.
  assert (Hf : is_failed (status inst) = false) by (by rewrite Hd).
  rewrite scheduleRender_iter, (scheduleRender_fresh i inst w Hw Hf Hfl Hq).
  cbn [renderQueue instances rand].
  split_and!; try done.
  - rewrite filter_app, length_app.
    rewrite filter_cons_True by done. simpl.
    by rewrite filter_eq_notin.
  - by rewrite lookup_insert_eq.
  - unfold turn. cbn [renderQueue instances rand].
    rewrite foldl_app. cbn [foldl].
    apply (runPass_counts i (queued [] inst)); [|done].
    rewrite passes_lookup_notin by done. cbn.
    by rewrite lookup_insert_eq.
Qed.

Lemma scheduleRender_coalesces_witness :
  let w := mount 0 Theme (emptyWorld (fun _ => "")) in
  let w' := scheduleRender 0 (scheduleRender 0 w) in
  renderQueue w' = [0]
  ∧ ∃ inst', instances (turn w') !! 0 = Some inst' ∧ version inst' = 2.
Proof.
  destruct (scheduleRender_coalesces 0 (settled Theme 0 [VStr "light"] 1) 0
              (mount 0 Theme (emptyWorld (fun _ => "")))
              eq_refl eq_refl eq_refl) as (_ & Hq & _ & _ & Hp).
  - cbn. apply not_elem_of_nil.
  - split; [exact Hq|].
    destruct Hp as (inst' & Hi & Hv & _). by exists inst'.
Defined.

(** ** Consistency violations *)

Lemma stopped_scheduleRender (i m n v : nat) (cs : list value) (k : nat) (w : World) :
  stopped i m n v cs w → stopped i m n v cs (scheduleRender k w).
Proof.
  intros (inst & Hi & Hf & Ho & Hv & Hc). unfold stopped, scheduleRender.
  destruct (instances w !! k) as [instk|] eqn:Hk; [|by exists inst].
  destruct (is_failed (status instk)) eqn:Hst; [by exists inst|].
  cbn. destruct (decide (k = i)) as [->|Hne].
  - rewrite Hi in Hk. injection Hk as <-. by rewrite Hf in Hst.
  - rewrite lookup_insert_ne by done. by exists inst.
Qed.

Lemma stopped_requestUpdate (i m n v : nat) (cs : list value)
    (r : UpdateRequest) (w : World) :
  stopped i m n v cs w → stopped i m n v cs (requestUpdate r w).
Proof.
  intros Hs. unfold requestUpdate.
  destruct (instances w !! ref_inst (target r)) as [instk|] eqn:Hk; [|done].
  apply stopped_scheduleRender.
  destruct Hs as (inst & Hi & Hf & Ho & Hv & Hc). unfold stopped, set_instance.
  cbn. destruct (decide (ref_inst (target r) = i)) as [Heq|Hne].
  - rewrite Heq in *. rewrite lookup_insert_eq. rewrite Hi in Hk.
    injection Hk as <-. by eexists.
  - rewrite lookup_insert_ne by done. by exists inst.
Qed.

Lemma stopped_runHandler (i m n v : nat) (cs : list value) (h : Handler) :
  ∀ w, stopped i m n v cs w → stopped i m n v cs (runHandler h w).
Proof.
  induction h as [|r h IH]; intros w Hs; [done|].
  rewrite runHandler_cons. by apply IH, stopped_requestUpdate.
Qed.

Lemma stopped_runPass (i m n v : nat) (cs : list value) (k : nat) (w : World) :
  stopped i m n v cs w → stopped i m n v cs (runPass k w).
Proof.
  intros (inst & Hi & Hf & Ho & Hv & Hc).
  destruct (decide (k = i)) as [->|Hne].
  - rewrite (runPass_failed i inst w Hi) by (by rewrite Hf). by exists inst.
  - exists inst. by rewrite runPass_lookup_ne.
Qed.

Lemma stopped_step (i m n v : nat) (cs : list value) (st : Step) (w : World) :
  stopped i m n v cs w → stopped i m n v cs (step st w).
Proof.
  intros Hs. destruct st as [k path name e|]; simpl.
  - unfold dispatch. destruct (instances w !! k) as [instk|]; [|done].
    destruct (output instk) as [out|]; [|done].
    destruct (handler_at path name out) as [hf|]; [|done].
    by apply stopped_runHandler.
  - unfold turn.
    assert (H0 : stopped i m n v cs
              {| instances := instances w; renderQueue := []; rand := rand w |})
      by exact Hs.
    revert H0. generalize {| instances := instances w; renderQueue := []; rand := rand w |}.
    induction (renderQueue w) as [|k q IH]; intros w0 H0; [done|].
    simpl. by apply IH, stopped_runPass.
Qed.

Lemma stopped_run (i m n v : nat) (cs : list value) (sts : list Step) :
  ∀ w, stopped i m n v cs w → stopped i m n v cs (run sts w).
Proof.
  induction sts as [|st sts IH]; intros w Hs; [done|].
  unfold run. simpl. fold (run sts). by apply IH, stopped_step.
Qed.

(** C3, as the claim states it, fails for a change of order that keeps
    the number of cell calls.  [Swapped] makes its three cell calls in
    another order once its flag is set; the count is 3 in both passes,
    nothing is detected, and the pass hands the cell of ["second"] to
    the call site of ["first"]. *)
Lemma swapped_order_undetected_counterexample :
  let w1 := mount 0 Swapped (emptyWorld (fun _ => "")) in
  let w2 := fire 0 [] "onClick" click w1 in
  callSequence Swapped 0 [] = [VBool false; VStr "second"; VStr "first"]
  ∧ (cells <$> instances w1 !! 0) = Some [VBool false; VStr "second"; VStr "first"]
  ∧ callSequence Swapped 0 [VBool true; VStr "second"; VStr "first"]
    = [VBool false; VStr "first"; VStr "second"]
  ∧ (status <$> instances w2 !! 0) = Some Clean
  ∧ (version <$> instances w2 !! 0) = Some 2
  ∧ (cells <$> instances w2 !! 0) = Some [VBool true; VStr "second"; VStr "first"]
  ∧ (children_of <$> (instances w1 !! 0 ≫= output)) = Some [Txt "first"; Txt "second"]
  ∧ (children_of <$> (instances w2 !! 0 ≫= output)) = Some [Txt "second"; Txt "first"].
Proof. vm_compute. split_and!; reflexivity. Qed.

(** C3, amended: whenever the number of cell calls of a pass differs
    from that of the previous pass of the same instance, [runPass]
    detects it: the instance is marked failed with the expected and
    the actual count, keeps its committed cells and no output, and no
    later handler invocation or turn renders it again. *)
Theorem runPass_detects_count_mismatch (i : nat) (inst : Instance) (m : nat)
    (w : World) (sts : list Step) :
  instances w !! i = Some inst →
  is_failed (status inst) = false →
  cellCount inst = Some m →
  let cs := (commitPendingUpdates (pending inst) (cells inst) (rand w)).1 in
  let n := callCount (component inst) i cs in
  n ≠ m →
  ∃ inst', instances (run sts (runPass i w)) !! i = Some inst'
           ∧ status inst' = Failed m n
           ∧ output inst' = None
           ∧ version inst' = S (version inst)
           ∧ cells inst' = cs.
Proof.
  intros Hw Hf Hm cs n Hne.
  apply (stopped_run i m n (S (version inst)) cs sts).
  subst cs n. unfold callCount in *.
  destruct (commitPendingUpdates _ _ _) as [cs r] eqn:Hc.
  destruct (component inst (beginRender i cs)) as [out ctx] eqn:Hb.
  cbn [fst snd] in *. rewrite Hb in Hne. cbn [snd] in Hne.
  erewrite runPass_mismatch; [ | exact Hw | done | exact Hc | exact Hb | exact Hm | congruence ].
  eexists. cbn. rewrite lookup_insert_eq. rewrite Hb. by split_and!.
Qed.

Lemma runPass_detects_count_mismatch_witness :
  let w := dispatch 0 [] "onClick" click
             (mount 0 Conditional (emptyWorld (fun _ => ""))) in
  ∃ inst', instances (run [Turn; Dispatch 0 [] "onClick" click; Turn] (runPass 0 w)) !! 0
             = Some inst'
           ∧ status inst' = Failed 1 2
           ∧ output inst' = None
           ∧ version inst' = 2
           ∧ cells inst' = [VBool true].
Proof.
  apply (runPass_detects_count_mismatch 0
           {| component := Conditional; cells := [VBool false];
              pending := [(0, NewValue (VBool true))]; cellCount := Some 1;
              status := Dirty; inFlight := false; version := 1;
              output := Some (Conditional (beginRender 0 [VBool false])).1 |}
           1
           (dispatch 0 [] "onClick" click
              (mount 0 Conditional (emptyWorld (fun _ => ""))))
           [Turn; Dispatch 0 [] "onClick" click; Turn]);
    [reflexivity | reflexivity | reflexivity | vm_compute; lia].
Defined.

(** * Further properties of the code *)

(** ** [generateId] *)

Lemma substring_length (n : nat) (s : string) :
  String.length (substring 0 n s) = n `min` String.length s.
Proof.
  revert s; induction n as [|n IH]; intros [|c s]; simpl; try done.
  by rewrite IH.
Qed.

(** X1: the id [generateId] returns has exactly one character more
    than the draw has radix-36 digits, up to nine digits; it is the
    bare ["_"] exactly when the draw is 0. *)
Theorem generateId_length (r : RandState) :
  String.length (generateId r).1 = 1 + 9 `min` String.length (oracle r (calls r))
  ∧ ((generateId r).1 = "_" ↔ oracle r (calls r) = "").
Proof.
  rewrite generateId_run. unfold idOfDraw. cbn [fst].
  change (String.length ("_" +:+ ?s)) with (S (String.length s)).
  rewrite substring_length. split; [done|].
  destruct (oracle r (calls r)); [done|]. split; discriminate.
Qed.

(** X2: two calls of [generateId] return the same id exactly when the
    two draws agree on their first nine radix-36 digits: what follows
    the ninth digit is lost. *)
Theorem generateId_collision (r1 r2 : RandState) :
  (generateId r1).1 = (generateId r2).1
  ↔ substring 0 9 (oracle r1 (calls r1)) = substring 0 9 (oracle r2 (calls r2)).
Proof.
  rewrite !generateId_run. unfold idOfDraw. cbn [fst].
  split; [intros H; injection H as H; exact H | by intros ->].
Qed.

(** ** More on the todo list *)

(** X3: typing into the input replaces the input text by what was
    typed and nothing else: the list is as before, no random draw is
    made, and no other instance changes. *)
Theorem typing_only_changes_input (i : nat) (l : list todo) (s : string)
    (ver : nat) (e : Event) (w : World) :
  instances w !! i = Some (settled Todo i (todoCells l s) ver) →
  renderQueue w = [] →
  let w' := fire i input_path "onChange" e w in
  input_of i w' = Some (target_value e)
  ∧ todos_of i w' = Some l
  ∧ rand w' = rand w
  ∧ ∀ j, j ≠ i → instances w' !! j = instances w !! j.
Proof.
  intros Hw Hq w'. subst w'. rewrite (change_settled i l s ver e w Hw Hq).
  rewrite input_of_settled, todos_of_settled. split_and!; try done.
  intros j Hj. cbn. by rewrite lookup_insert_ne.
Qed.

Lemma typing_only_changes_input_witness :
  let w := addItems 0 ["a"] (mount 0 Todo (emptyWorld (fun _ => "abc"))) in
  let w' := fire 0 input_path "onChange" {| target_value := "b" |} w in
  input_of 0 w' = Some "b"
  ∧ todos_of 0 w' = Some [ {| text := "a"; id := "_abc" |} ]
  ∧ calls (rand w') = 1.
Proof.
  destruct (typing_only_changes_input 0 [ {| text := "a"; id := "_abc" |} ] "" 3
              {| target_value := "b" |}
              (addItems 0 ["a"] (mount 0 Todo (emptyWorld (fun _ => "abc"))))
              eq_refl eq_refl) as (H1 & H2 & H3 & _).
  split_and!; [exact H1 | exact H2 | by rewrite H3].
Defined.

Lemma filter_id_idem (x : string) (l : list todo) :
  filter (fun t => id t ≠ x) (filter (fun t => id t ≠ x) l)
  = filter (fun t => id t ≠ x) l.
Proof.
  rewrite list_filter_filter. apply list_filter_iff. intros t. tauto.
Qed.

Lemma filter_id_comm (x y : string) (l : list todo) :
  filter (fun t => id t ≠ x) (filter (fun t => id t ≠ y) l)
  = filter (fun t => id t ≠ y) (filter (fun t => id t ≠ x) l).
Proof.
  rewrite !list_filter_filter. apply list_filter_iff. intros t. tauto.
Qed.

(** X4: after [removeItem(id)] no record of the list carries the id,
    the records left are those of the old list in their old order, and
    removing the same id again changes nothing. *)
Theorem removeItem_idempotent (i : nat) (l : list todo) (s : string) (ver : nat)
    (x : string) (w : World) :
  instances w !! i = Some (settled Todo i (todoCells l s) ver) →
  renderQueue w = [] →
  ∃ l', todos_of i (removeItem i x w) = Some l'
        ∧ Forall (fun t => id t ≠ x) l'
        ∧ l' `sublist_of` l
        ∧ todos_of i (removeItem i x (removeItem i x w)) = Some l'.
Proof.
  intros Hw Hq. rewrite (removeItem_settled i l s ver x w Hw Hq).
  erewrite removeItem_settled; [ | apply lookup_insert_eq | done ].
  rewrite !todos_of_settled, filter_id_idem.
  eexists; split_and!; [done | | apply sublist_filter | done].
  apply Forall_forall. intros t Ht. by apply list_elem_of_filter in Ht as [? _].
Qed.

Lemma removeItem_idempotent_witness :
  let w := addItems 0 ["a"; "b"]
             (mount 0 Todo (emptyWorld (fun k => match k with 0 => "abc" | _ => "xyz" end))) in
  ∃ l', todos_of 0 (removeItem 0 "_abc" w) = Some l'
        ∧ Forall (fun t => id t ≠ "_abc") l'
        ∧ l' `sublist_of` [ {| text := "a"; id := "_abc" |};
                            {| text := "b"; id := "_xyz" |} ]
        ∧ todos_of 0 (removeItem 0 "_abc" (removeItem 0 "_abc" w)) = Some l'.
Proof.
  exact (removeItem_idempotent 0
           [ {| text := "a"; id := "_abc" |}; {| text := "b"; id := "_xyz" |} ]
           "" 5 "_abc"
           (addItems 0 ["a"; "b"]
              (mount 0 Todo (emptyWorld (fun k => match k with 0 => "abc" | _ => "xyz" end))))
           eq_refl eq_refl).
Defined.

(** X5: removals commute: removing two ids in either order leaves the
    same list. *)
Theorem removeItem_commutes (i : nat) (l : list todo) (s : string) (ver : nat)
    (x y : string) (w : World) :
  instances w !! i = Some (settled Todo i (todoCells l s) ver) →
  renderQueue w = [] →
  todos_of i (removeItem i x (removeItem i y w))
  = todos_of i (removeItem i y (removeItem i x w)).
Proof.
  intros Hw Hq.
  rewrite (removeItem_settled i l s ver x w Hw Hq),
          (removeItem_settled i l s ver y w Hw Hq).
  erewrite !removeItem_settled; [ | apply lookup_insert_eq | done
                                  | apply lookup_insert_eq | done ].
  by rewrite !todos_of_settled, filter_id_comm.
Qed.

Lemma removeItem_commutes_witness :
  let w := addItems 0 ["a"; "b"; "c"]
             (mount 0 Todo (emptyWorld (fun k => match k with
                                                 | 0 => "abc" | 1 => "xyz" | _ => "i"
                                                 end))) in
  todos_of 0 (removeItem 0 "_abc" (removeItem 0 "_i" w))
  = todos_of 0 (removeItem 0 "_i" (removeItem 0 "_abc" w)).
Proof.
  exact (removeItem_commutes 0
           [ {| text := "a"; id := "_abc" |}; {| text := "b"; id := "_xyz" |};
             {| text := "c"; id := "_i" |} ]
           "" 7 "_abc" "_i"
           (addItems 0 ["a"; "b"; "c"]
              (mount 0 Todo (emptyWorld (fun k => match k with
                                                  | 0 => "abc" | 1 => "xyz" | _ => "i"
                                                  end))))
           eq_refl eq_refl).
Defined.

(** X6: adding a text and then removing the id the new record got
    gives back the list as it was, provided no older record carries
    that id; the input text is left empty. *)
Theorem addItem_then_removeItem (i : nat) (l : list todo) (s : string)
    (ver : nat) (txt : string) (w : World) :
  instances w !! i = Some (settled Todo i (todoCells l s) ver) →
  renderQueue w = [] →
  let newId := idOfDraw (oracle (rand w)) (calls (rand w)) in
  newId ∉ id <$> l →
  let w' := removeItem i newId (addItem i txt w) in
  todos_of i w' = Some l ∧ input_of i w' = Some "".
Proof.
  intros Hw Hq newId Hfresh w'. subst w'.
  rewrite (addItem_settled i l s ver txt w Hw Hq).
  erewrite removeItem_settled; [ | apply lookup_insert_eq | done ].
  rewrite todos_of_settled, input_of_settled. split; [|done].
  rewrite filter_app, filter_id_absent by done.
  rewrite filter_cons_False by (intros Hc; by apply Hc).
  by rewrite app_nil_r.
Qed.

Lemma addItem_then_removeItem_witness :
  let o := fun k => match k with 0 => "abc" | _ => "xyz" end in
  let w := addItems 0 ["a"] (mount 0 Todo (emptyWorld o)) in
  todos_of 0 (removeItem 0 "_xyz" (addItem 0 "b" w))
  = Some [ {| text := "a"; id := "_abc" |} ].
Proof.
  refine (proj1 (addItem_then_removeItem 0 [ {| text := "a"; id := "_abc" |} ] "" 3 "b"
           (addItems 0 ["a"] (mount 0 Todo (emptyWorld
              (fun k => match k with 0 => "abc" | _ => "xyz" end))))
           eq_refl eq_refl _)).
  vm_compute. intros H. apply list_elem_of_singleton in H. discriminate.
Defined.

Lemma dispatch_handler (i : nat) (path : list nat) (name : string) (e : Event)
    (inst : Instance) (out : Element) (hf : Event -> Handler) (w : World) :
  instances w !! i = Some inst →
  output inst = Some out →
  handler_at path name out = Some hf →
  dispatch i path name e w = runHandler (hf e) w.
Proof.
  intros Hw Ho Hh. unfold dispatch. by rewrite Hw, Ho, Hh.
Qed.

(** Two handlers of one settled instance run one after the other, then
    the turn: one pass over the requests of both. *)
Lemma settled_pass_two (c : Hook Element) (i : nat) (cs : list value) (ver : nat)
    (h1 h2 : Handler) (w : World) (cs' : list value) (r : RandState) :
  h1 ≠ [] → h2 ≠ [] →
  Forall (fun r => ref_inst (target r) = i) h1 →
  Forall (fun r => ref_inst (target r) = i) h2 →
  instances w !! i = Some (settled c i cs ver) →
  renderQueue w = [] →
  commitPendingUpdates
    (map (fun r => (ref_index (target r), payload r)) (h1 ++ h2))
    cs (rand w) = (cs', r) →
  rc_cells (c (beginRender i cs')).2 = cs' →
  rc_cursor (c (beginRender i cs')).2 = length cs →
  length cs' = length cs →
  turn (runHandler h2 (runHandler h1 w)) =
  {| instances := <[i := settled c i cs' (S ver)]> (instances w);
     renderQueue := []; rand := r |}.
Proof.
  intros Hn1 Hn2 Ha1 Ha2 Hw Hq Hc Hcells Hcur Hlen.
  rewrite (runHandler_own i h1 _ w Hn1 Ha1 Hw eq_refl eq_refl).
  erewrite (runHandler_own i h2); [ | done | done | apply lookup_insert_eq | done | done ].
  cbn [instances renderQueue rand].
  rewrite insert_insert_eq, queued_queued, enqueue_idem, Hq.
  unfold turn. cbn [instances renderQueue rand enqueue]. cbn [foldl].
  destruct (c (beginRender i cs')) as [out ctx] eqn:Hb. simpl in *.
  erewrite runPass_ok; [ | apply lookup_insert_eq | done | exact Hc | exact Hb | ].
  - simpl. rewrite insert_insert_eq. unfold settled.
    rewrite Hb, Hcells, Hcur, Hlen. reflexivity.
  - right. simpl. by rewrite Hcur.
Qed.

(** X7: two clicks on Submit that reach the component before it is
    rendered again are not lost: [setTodos] is given an updater, so one
    pass appends two records, both with the text the input showed when
    it was last rendered, their ids made of two successive draws. *)
Theorem submit_twice_in_one_turn (i : nat) (l : list todo) (s : string)
    (ver : nat) (e1 e2 : Event) (w : World) :
  instances w !! i = Some (settled Todo i (todoCells l s) ver) →
  renderQueue w = [] →
  let w' := turn (dispatch i submit_path "onClick" e2
                    (dispatch i submit_path "onClick" e1 w)) in
  let o := oracle (rand w) in
  let c := calls (rand w) in
  todos_of i w' = Some (l ++ [ {| text := s; id := idOfDraw o c |};
                               {| text := s; id := idOfDraw o (S c) |} ])
  ∧ input_of i w' = Some ""
  ∧ (version <$> instances w' !! i) = Some (S ver).
Proof.
  intros Hw Hq w' o c. subst w' o c.
  set (h := handleSubmit (setterOf {| ref_inst := i; ref_index := 0 |})
                         (setterOf {| ref_inst := i; ref_index := 1 |}) s).
  rewrite (dispatch_handler i submit_path "onClick" e1
             (settled Todo i (todoCells l s) ver)
             (Todo (beginRender i (todoCells l s))).1 (fun _ => h) w Hw eq_refl
             (proj1 (Todo_handlers i l s))).
  assert (Hw1 : instances (runHandler h w) !! i
                = Some (queued h (settled Todo i (todoCells l s) ver))).
  { rewrite (runHandler_own i h (settled Todo i (todoCells l s) ver) w);
      [ | done | by repeat constructor | exact Hw | done | done ].
    cbn. by rewrite lookup_insert_eq. }
  rewrite (dispatch_handler i submit_path "onClick" e2
             (queued h (settled Todo i (todoCells l s) ver))
             (Todo (beginRender i (todoCells l s))).1 (fun _ => h) _ Hw1 eq_refl
             (proj1 (Todo_handlers i l s))).
  assert (Hall : Forall (fun r => ref_inst (target r) = i) h)
    by (by repeat constructor).
  assert (Hne : h ≠ []) by done.
  assert (Hc : commitPendingUpdates
                 (map (fun r => (ref_index (target r), payload r)) (h ++ h))
                 (todoCells l s) (rand w)
               = (todoCells
                    (l ++ [ {| text := s; id := idOfDraw (oracle (rand w)) (calls (rand w)) |};
                            {| text := s; id := idOfDraw (oracle (rand w)) (S (calls (rand w))) |} ])
                    "",
                  {| oracle := oracle (rand w); calls := S (S (calls (rand w))) |})).
  { cbn. unfold mbind, State_bind. rewrite generateId_run. cbn.
    rewrite generateId_run. cbn. rewrite <- app_assoc. reflexivity. }
  rewrite (settled_pass_two Todo i (todoCells l s) ver h h w _ _
             Hne Hne Hall Hall Hw Hq Hc eq_refl eq_refl eq_refl).
  rewrite todos_of_settled, input_of_settled. cbn.
  rewrite lookup_insert_eq. split_and!; reflexivity.
Qed.

Lemma submit_twice_in_one_turn_witness :
  let o := fun k => match k with 0 => "abc" | _ => "xyz" end in
  let w := fire 0 input_path "onChange" {| target_value := "milk" |}
             (mount 0 Todo (emptyWorld o)) in
  todos_of 0 (turn (dispatch 0 submit_path "onClick" click
                      (dispatch 0 submit_path "onClick" click w)))
  = Some [ {| text := "milk"; id := "_abc" |}; {| text := "milk"; id := "_xyz" |} ].
Proof.
  exact (proj1 (submit_twice_in_one_turn 0 [] "milk" 2 click click
           (fire 0 input_path "onChange" {| target_value := "milk" |}
              (mount 0 Todo (emptyWorld
                 (fun k => match k with 0 => "abc" | _ => "xyz" end))))
           eq_refl eq_refl)).
Defined.

(** *** What holds after any events *)

Lemma fireAll_cons (i : nat) (ev : list nat * string * Event)
    (evs : list (list nat * string * Event)) (w : World) :
  fireAll i (ev :: evs) w = fireAll i evs (fire i ev.1.1 ev.1.2 ev.2 w).
Proof. reflexivity. Qed.

Lemma filter_recordOf (o : nat -> Draw) (x : string) (ps : list (string * nat)) :
  filter (fun t => id t ≠ x) (recordOf o <$> ps)
  = recordOf o <$> filter (fun p => idOfDraw o p.2 ≠ x) ps.
Proof.
  induction ps as [|p ps IH]; [done|].
  rewrite fmap_cons. destruct (decide (idOfDraw o p.2 = x)) as [Heq|Hne].
  - rewrite !filter_cons_False by (intros Hc; by apply Hc). exact IH.
  - rewrite !filter_cons_True by done. rewrite fmap_cons. by f_equal.
Qed.

Lemma sorted_filter_snd (Q : string * nat -> Prop) `{∀ p, Decision (Q p)}
    (ps : list (string * nat)) :
  StronglySorted lt (snd <$> ps) → StronglySorted lt (snd <$> filter Q ps).
Proof.
  induction ps as [|p ps IH]; intros Hs; [constructor|].
  rewrite fmap_cons in Hs. apply StronglySorted_inv in Hs as [Hs Hp].
  destruct (decide (Q p)) as [Hq|Hq].
  - rewrite filter_cons_True by done. rewrite fmap_cons.
    constructor; [by apply IH|].
    apply Forall_forall. intros k Hk.
    apply list_elem_of_fmap in Hk as (p' & -> & Hp').
    apply list_elem_of_filter in Hp' as [_ Hp'].
    rewrite Forall_forall in Hp. apply Hp.
    apply list_elem_of_fmap. eauto.
  - rewrite filter_cons_False by done. by apply IH.
Qed.

Lemma sorted_snoc_snd (ps : list (string * nat)) (s : string) (c : nat) :
  StronglySorted lt (snd <$> ps) →
  Forall (fun p => p.2 < c) ps →
  StronglySorted lt (snd <$> (ps ++ [(s, c)])).
Proof.
  induction ps as [|p ps IH]; intros Hs Hc.
  - repeat constructor.
  - rewrite fmap_cons in Hs. apply StronglySorted_inv in Hs as [Hs Hp].
    apply Forall_cons_1 in Hc as [Hpc Hc].
    cbn. constructor; [by apply IH|].
    rewrite fmap_app. apply Forall_app. split; [done|].
    by repeat constructor.
Qed.

Lemma todo_history_mount (o : nat -> Draw) (i : nat) :
  todo_history o i (mount i Todo (emptyWorld o)).
Proof.
  rewrite mount_Todo by done. exists [], "", 1. cbn.
  rewrite lookup_insert_eq. split_and!; try done; constructor.
Qed.

Lemma todo_history_fire (o : nat -> Draw) (i : nat) (path : list nat)
    (name : string) (e : Event) (w : World) :
  todo_history o i w →
  todo_history o i (fire i path name e w)
  ∧ calls (rand w) ≤ calls (rand (fire i path name e w)).
Proof.
  intros (ps & s & ver & Hw & Hq & Ho & Hs & Hc).
  destruct (handler_at path name (Todo (beginRender i (todoCells (recordOf o <$> ps) s))).1)
    as [hf|] eqn:Hh.
  - rewrite (fire_handler i path name e _ _ hf w Hw eq_refl Hh).
    apply Todo_handler_cases in Hh as [-> | [-> | (t & _ & ->)]].
    + rewrite <- (fire_handler i input_path "onChange" e _ _ _ w Hw eq_refl
                    (proj2 (Todo_handlers i _ s))).
      rewrite (change_settled i _ s ver e w Hw Hq). split; [|done].
      exists ps, (target_value e), (S ver). cbn.
      by rewrite lookup_insert_eq.
    + rewrite <- (fire_handler i submit_path "onClick" e _ _ _ w Hw eq_refl
                    (proj1 (Todo_handlers i _ s))).
      rewrite (submit_settled i _ s ver e w Hw Hq). split; [|cbn; lia].
      exists (ps ++ [(s, calls (rand w))]), "", (S ver). cbn.
      rewrite lookup_insert_eq, fmap_app, Ho. split_and!; try done.
      * by apply sorted_snoc_snd.
      * apply Forall_app. split.
        -- eapply Forall_impl; [exact Hc|]. cbn. intros p Hp. lia.
        -- repeat constructor.
    + change (turn (runHandler _ w)) with (removeItem i (id t) w).
      rewrite (removeItem_settled i _ s ver (id t) w Hw Hq). split; [|done].
      exists (filter (fun p => idOfDraw o p.2 ≠ id t) ps), s, (S ver). cbn.
      rewrite lookup_insert_eq, filter_recordOf. split_and!; try done.
      * by apply sorted_filter_snd.
      * apply Forall_forall. intros p Hp.
        apply list_elem_of_filter in Hp as [_ Hp].
        rewrite Forall_forall in Hc. by apply Hc.
  - rewrite (fire_no_handler i path name e _ _ w Hw eq_refl Hh).
    rewrite turn_idle by done. split; [|done].
    by exists ps, s, ver.
Qed.

Lemma todo_history_fireAll (o : nat -> Draw) (i : nat)
    (evs : list (list nat * string * Event)) :
  ∀ w, todo_history o i w → todo_history o i (fireAll i evs w).
Proof.
  induction evs as [|ev evs IH]; intros w Hw; [done|].
  rewrite fireAll_cons. by apply IH, todo_history_fire.
Qed.

Lemma draws_distinct (o : nat -> Draw) (n j k : nat) :
  NoDup ((fun k => substring 0 9 (o k)) <$> seq 0 n) →
  j < n → k < n → idOfDraw o j = idOfDraw o k → j = k.
Proof.
  intros Hnd Hj Hk Heq. unfold idOfDraw in Heq. injection Heq as Heq.
  rewrite NoDup_alt in Hnd.
  apply (Hnd j k (substring 0 9 (o j))).
  - rewrite list_lookup_fmap. by rewrite (proj2 (lookup_seq 0 n j j)).
  - rewrite list_lookup_fmap. rewrite (proj2 (lookup_seq 0 n k k)) by done.
    cbn. by f_equal.
Qed.

Lemma sorted_lt_NoDup (ks : list nat) : StronglySorted lt ks → NoDup ks.
Proof.
  induction 1 as [|k ks Hs IH Hk]; constructor; [|done].
  intros Hin. rewrite Forall_forall in Hk. specialize (Hk k Hin). lia.
Qed.

(** X8: whatever events are fired at a mounted [Todo], every id in its
    list is the id [generateId] made of one of the draws consumed so
    far, the list is never longer than the number of draws, and as
    long as the draws consumed so far differ in their first nine
    digits the ids in the list are pairwise distinct. *)
Theorem Todo_ids_after_any_events (o : nat -> Draw) (i : nat)
    (evs : list (list nat * string * Event)) :
  let w := fireAll i evs (mount i Todo (emptyWorld o)) in
  ∃ l, todos_of i w = Some l
       ∧ Forall (fun t => ∃ k, k < calls (rand w) ∧ id t = idOfDraw o k) l
       ∧ length l ≤ calls (rand w)
       ∧ (NoDup ((fun k => substring 0 9 (o k)) <$> seq 0 (calls (rand w))) →
          NoDup (id <$> l)).
Proof.
  intros w.
  destruct (todo_history_fireAll o i evs _ (todo_history_mount o i))
    as (ps & s & ver & Hw & Hq & Ho & Hs & Hc). fold w in Hw, Hq, Ho, Hc.
  exists (recordOf o <$> ps). split_and!.
  - unfold todos_of. by rewrite Hw.
  - apply Forall_fmap. eapply Forall_impl; [exact Hc|].
    intros p Hp. exists p.2. by split.
  - rewrite length_fmap.
    assert (Hnd : NoDup (snd <$> ps)) by (by apply sorted_lt_NoDup).
    assert (Hsub : snd <$> ps ⊆ seq 0 (calls (rand w))).
    { intros k Hk. apply list_elem_of_fmap in Hk as (p & -> & Hp).
      rewrite Forall_forall in Hc. apply elem_of_seq. split; [lia|].
      cbn. by apply Hc. }
    pose proof (submseteq_length _ _ (NoDup_submseteq _ _ Hnd (fun k Hk => Hsub k Hk))) as Hlen.
    by rewrite length_fmap, length_seq in Hlen.
  - intros Hnd. rewrite <- list_fmap_compose.
    change (id ∘ recordOf o) with (idOfDraw o ∘ (snd : string * nat → nat)).
    rewrite list_fmap_compose.
    apply NoDup_fmap_2_strong; [|by apply sorted_lt_NoDup].
    intros j k Hj Hk Heq.
    apply list_elem_of_fmap in Hj as (p & -> & Hp).
    apply list_elem_of_fmap in Hk as (q & -> & Hq').
    rewrite Forall_forall in Hc.
    by apply (draws_distinct o (calls (rand w))); [ | apply Hc | apply Hc | ].
Qed.

Lemma Todo_ids_after_any_events_witness :
  let o := fun k => match k with 0 => "abc" | 1 => "xyz" | _ => "i" end in
  let w := fireAll 0 [ (submit_path, "onClick", click);
                       (input_path, "onChange", {| target_value := "b" |});
                       (submit_path, "onClick", click);
                       (remove_path 0, "onClick", click);
                       (submit_path, "onClick", click) ]
             (mount 0 Todo (emptyWorld o)) in
  ∃ l, todos_of 0 w = Some l ∧ NoDup (id <$> l).
Proof.
  intros o w.
  destruct (Todo_ids_after_any_events o 0
              [ (submit_path, "onClick", click);
                (input_path, "onChange", {| target_value := "b" |});
                (submit_path, "onClick", click);
                (remove_path 0, "onClick", click);
                (submit_path, "onClick", click) ]) as (l & Hl & _ & _ & Hnd).
  exists l. split; [exact Hl|]. apply Hnd.
  assert (Hc : calls (rand (fireAll 0
              [ (submit_path, "onClick", click);
                (input_path, "onChange", {| target_value := "b" |});
                (submit_path, "onClick", click);
                (remove_path 0, "onClick", click);
                (submit_path, "onClick", click) ] (mount 0 Todo (emptyWorld o)))) = 3) by (vm_compute; reflexivity).
  rewrite Hc. clear Hc Hl Hnd. cbn.
  repeat (apply NoDup_cons_2; [rewrite ?not_elem_of_cons; split_and?; try discriminate; apply not_elem_of_nil|]).
  apply NoDup_nil_2.
Defined.

Lemma shown_Todo (i : nat) (l : list todo) (s : string) :
  shown_items (Todo (beginRender i (todoCells l s))).1
    = (fun t => Some (id t, text t)) <$> l
  ∧ shown_input (Todo (beginRender i (todoCells l s))).1 = Some (PStr s).
Proof.
  rewrite Todo_output. split; [|reflexivity].
  unfold shown_items. cbn -[fmap]. rewrite <- list_fmap_compose.
  by apply list_fmap_ext.
Qed.

(** X9: whatever events are fired at a mounted [Todo], what it shows
    is what it holds: its output has one item per record of the list,
    in the order of the list, keyed by the id and showing the text,
    and its input shows the input text. *)
Theorem Todo_shows_its_state (o : nat -> Draw) (i : nat)
    (evs : list (list nat * string * Event)) :
  let w := fireAll i evs (mount i Todo (emptyWorld o)) in
  ∃ l s out,
    todos_of i w = Some l
    ∧ input_of i w = Some s
    ∧ output_of i w = Some out
    ∧ shown_items out = (fun t => Some (id t, text t)) <$> l
    ∧ shown_input out = Some (PStr s).
Proof.
  intros w. destruct (Todo_reachable o i evs) as (l & s & ver & Hw & _).
  change (instances w !! i = Some (settled Todo i (todoCells l s) ver)) in Hw.
  exists l, s, (Todo (beginRender i (todoCells l s))).1.
  unfold todos_of, input_of, output_of. rewrite Hw. cbn.
  split_and!; try done; apply shown_Todo.
Qed.

(** ** The rule of hooks *)









(** ** More on the theme switch *)

Lemma Theme_click_handler (i : nat) (t : string) :
  t = "light" ∨ t = "dark" →
  handler_at theme_button_path "onClick" (Theme (beginRender i [VStr t])).1
  = Some (fun _ => [ setterOf {| ref_inst := i; ref_index := 0 |}
                       (SetTo (other_theme t)) ]).
Proof. intros [-> | ->]; reflexivity. Qed.

Lemma click_settled (i : nat) (t : string) (ver : nat) (e : Event) (w : World) :
  t = "light" ∨ t = "dark" →
  instances w !! i = Some (settled Theme i [VStr t] ver) →
  renderQueue w = [] →
  fire i theme_button_path "onClick" e w =
  {| instances := <[i := settled Theme i [VStr (other_theme t)] (S ver)]> (instances w);
     renderQueue := []; rand := rand w |}.
Proof.
  intros Ht Hw Hq.
  erewrite fire_handler; [ | exact Hw | reflexivity | by apply Theme_click_handler ].
  eapply settled_pass; try done. repeat constructor.
Qed.

Lemma other_theme_twice (t : string) :
  t = "light" ∨ t = "dark" → other_theme (other_theme t) = t.
Proof. by intros [-> | ->]. Qed.

Lemma other_theme_valid (t : string) :
  t = "light" ∨ t = "dark" → other_theme t = "light" ∨ other_theme t = "dark".
Proof. intros [-> | ->]; [by right | by left]. Qed.

Lemma clicks_settled (o : nat -> Draw) (i : nat) (n : nat) :
  Nat.iter n (fire i theme_button_path "onClick" click)
           (mount i Theme (emptyWorld o))
  = {| instances :=
         <[i := settled Theme i
                  [VStr (if Nat.even n then "light" else "dark")] (S n)]> ∅;
       renderQueue := []; rand := {| oracle := o; calls := 0 |} |}.
Proof.
  induction n as [|n IH].
  - cbn [Nat.iter nat_rect]. by rewrite mount_Theme.
  - rewrite Nat.iter_succ, IH.
    erewrite click_settled; [ | | apply lookup_insert_eq | done ].
    + cbn [instances rand]. rewrite insert_insert_eq.
      rewrite Nat.even_succ, <- Nat.negb_even.
      by destruct (Nat.even n).
    + destruct (Nat.even n); [by left | by right].
Qed.

(** X11: the theme after [n] clicks on the button of a freshly mounted
    [Theme], each followed by its pass, is ["light"] when [n] is even
    and ["dark"] when it is odd; each click costs exactly one pass. *)
Theorem Theme_after_clicks (o : nat -> Draw) (i : nat) (n : nat) :
  let w := Nat.iter n (fire i theme_button_path "onClick" click)
                    (mount i Theme (emptyWorld o)) in
  theme_of i w = Some (if Nat.even n then "light" else "dark")
  ∧ (version <$> instances w !! i) = Some (S n).
Proof.
  intros w. subst w. rewrite clicks_settled.
  unfold theme_of. cbn. by rewrite lookup_insert_eq.
Qed.

(** X12: the handler of the button sets the theme to a constant, the
    other of the theme it was rendered for; it does not toggle.  Two
    clicks that reach the component before it is rendered again switch
    the theme once, while two clicks with a pass in between bring the
    theme back. *)
Theorem Theme_two_clicks (i : nat) (t : string) (ver : nat) (e1 e2 : Event)
    (w : World) :
  t = "light" ∨ t = "dark" →
  instances w !! i = Some (settled Theme i [VStr t] ver) →
  renderQueue w = [] →
  theme_of i (turn (dispatch i theme_button_path "onClick" e2
                      (dispatch i theme_button_path "onClick" e1 w)))
    = Some (other_theme t)
  ∧ theme_of i (fire i theme_button_path "onClick" e2
                  (fire i theme_button_path "onClick" e1 w))
    = Some t.
Proof.
  intros Ht Hw Hq.
  set (h := [ setterOf {| ref_inst := i; ref_index := 0 |}
                (SetTo (other_theme t)) ] : Handler).
  split.
  - rewrite (dispatch_handler i theme_button_path "onClick" e1
               (settled Theme i [VStr t] ver)
               (Theme (beginRender i [VStr t])).1 (fun _ => h) w Hw eq_refl
               (Theme_click_handler i t Ht)).
    assert (Hw1 : instances (runHandler h w) !! i
                  = Some (queued h (settled Theme i [VStr t] ver))).
    { rewrite (runHandler_own i h (settled Theme i [VStr t] ver) w);
        [ | done | by repeat constructor | exact Hw | done | done ].
      cbn. by rewrite lookup_insert_eq. }
    rewrite (dispatch_handler i theme_button_path "onClick" e2
               (queued h (settled Theme i [VStr t] ver))
               (Theme (beginRender i [VStr t])).1 (fun _ => h) _ Hw1 eq_refl
               (Theme_click_handler i t Ht)).
    assert (Hall : Forall (fun r => ref_inst (target r) = i) h)
      by (by repeat constructor).
    assert (Hne : h ≠ []) by done.
    rewrite (settled_pass_two Theme i [VStr t] ver h h w
               [VStr (other_theme t)] (rand w)
               Hne Hne Hall Hall Hw Hq eq_refl eq_refl eq_refl eq_refl).
    unfold theme_of. cbn. by rewrite lookup_insert_eq.
  - rewrite (click_settled i t ver e1 w Ht Hw Hq).
    erewrite click_settled;
      [ | by apply other_theme_valid | apply lookup_insert_eq | done ].
    unfold theme_of. cbn. rewrite lookup_insert_eq. cbn.
    by rewrite other_theme_twice.
Qed.

Lemma Theme_two_clicks_witness :
  let w := mount 0 Theme (emptyWorld (fun _ => "")) in
  theme_of 0 (turn (dispatch 0 theme_button_path "onClick" click
                      (dispatch 0 theme_button_path "onClick" click w)))
    = Some "dark"
  ∧ theme_of 0 (fire 0 theme_button_path "onClick" click
                  (fire 0 theme_button_path "onClick" click w))
    = Some "light".
Proof.
  exact (Theme_two_clicks 0 "light" 1 click click
           (mount 0 Theme (emptyWorld (fun _ => "")))
           (or_introl eq_refl) eq_refl eq_refl).
Defined.

(** X13: in every world reached from the mounted [Theme] by handler
    invocations and turns, the [div] it last returned carries the
    theme the cell holds as its class name, and its one child is the
    button for that theme. *)
Theorem Theme_shows_its_theme (o : nat -> Draw) (i : nat) (sts : list Step) :
  let w := run sts (mount i Theme (emptyWorld o)) in
  ∃ t out,
    theme_of i w = Some t
    ∧ output_of i w = Some out
    ∧ find_prop "className" (props_of out) = Some (PStr t)
    ∧ element_at [0; 0] out
      = Some (Txt (if String.eqb t "light" then "🔦" else "💡"))
    ∧ length (children_of out) = 1.
Proof.
  intros w.
  destruct (theme_state_run i sts [] "light" _ (theme_state_mount o i))
    as (P & t & Hw). fold w in Hw.
  destruct Hw as (_ & Hall & ver & st & _ & Hi).
  apply Forall_cons_1 in Hall as [Ht _].
  exists t, (Theme (beginRender i [VStr t])).1.
  unfold theme_of, output_of. rewrite Hi. cbn [mbind option_bind output cells].
  split_and!; [done | done | ..]; destruct Ht as [-> | ->]; reflexivity.
Qed.

(** ** The ways of sharing the hover logic *)

(** X14: moving the hover logic of [Info] into [useHover] changes
    nothing but the wrapper: in every render context the version with
    the state inline and the version calling [useHover] return the same
    children (tooltip or none, and the [svg] with the same handlers,
    width and view box) and leave the same cells, cursor and cell
    calls; only the enclosing [div] becomes a fragment. *)
Theorem Info_with_useHover_is_Info (a b : string) (ctx : RenderCtx) :
  children_of (Info a b ctx).1 = children_of (CopyPaste.Info a b ctx).1
  ∧ (Info a b ctx).2 = (CopyPaste.Info a b ctx).2
  ∧ (∀ path name,
       path ≠ [] →
       handler_at path name (Info a b ctx).1
       = handler_at path name (CopyPaste.Info a b ctx).1).
Proof.
  assert (Hc : children_of (Info a b ctx).1 = children_of (CopyPaste.Info a b ctx).1
               ∧ (Info a b ctx).2 = (CopyPaste.Info a b ctx).2).
  { unfold Info, CopyPaste.Info, useHover, useState, nextCell.
    unfold mbind, State_bind, mret, State_ret.
    by destruct (rc_cells ctx !! rc_cursor ctx). }
  destruct Hc as [Hc Hx]. split_and!; [done | done |].
  intros [|k path] name Hne; [done|].
  unfold handler_at. cbn [element_at]. by rewrite Hc.
Qed.

Lemma TrendChart_settled (a : string) (i : nat) (h : bool) (ver : nat)
    (ev : HoverEvent) (w : World) :
  instances w !! i = Some (settled (CopyPaste.TrendChart a) i [VBool h] ver) →
  renderQueue w = [] →
  fire i [1] (match ev with Enter => "onMouseOver" | Leave => "onMouseOut" end)
       click w =
  {| instances :=
       <[i := settled (CopyPaste.TrendChart a) i [VBool (is_enter ev)] (S ver)]>
         (instances w);
     renderQueue := []; rand := rand w |}.
Proof.
  intros Hw Hq. destruct ev.
  - erewrite fire_handler; [ | exact Hw | reflexivity | reflexivity ].
    eapply settled_pass; try done. repeat constructor.
  - erewrite fire_handler; [ | exact Hw | reflexivity | reflexivity ].
    eapply settled_pass; try done. repeat constructor.
Qed.

(** X15: [TrendChart] shows its tooltip exactly while the pointer is
    over its chart: after [onMouseOver] on the chart the next output
    has the [Tooltip] with the id of the component as its first child,
    after [onMouseOut] it has none there; the chart keeps its place and
    its type. *)
Theorem TrendChart_tooltip (a : string) (i : nat) (h : bool) (ver : nat)
    (w : World) :
  instances w !! i = Some (settled (CopyPaste.TrendChart a) i [VBool h] ver) →
  renderQueue w = [] →
  (output_of i (fire i [1] "onMouseOver" click w) ≫= shown_tooltip)
    = Some (El "Tooltip" [ ("id", PStr a) ] [])
  ∧ (output_of i (fire i [1] "onMouseOut" click w) ≫= shown_tooltip)
    = Some Null
  ∧ ∀ name, name = "onMouseOver" ∨ name = "onMouseOut" →
      (output_of i (fire i [1] name click w)
         ≫= (fun out => children_of out !! 1
                          ≫= (fun chart => find_prop "type" (props_of chart))))
      = Some (PStr "trend").
Proof.
  intros Hw Hq.
  pose proof (TrendChart_settled a i h ver Enter w Hw Hq) as He.
  pose proof (TrendChart_settled a i h ver Leave w Hw Hq) as Hl.
  cbn [is_enter] in He, Hl.
  split_and!.
  - rewrite He. unfold output_of. cbn. by rewrite lookup_insert_eq.
  - rewrite Hl. unfold output_of. cbn. by rewrite lookup_insert_eq.
  - intros name [-> | ->]; [rewrite He | rewrite Hl];
      unfold output_of; cbn; by rewrite lookup_insert_eq.
Qed.

Lemma TrendChart_tooltip_witness :
  let w := mount 5 (CopyPaste.TrendChart "t1") (emptyWorld (fun _ => "")) in
  (output_of 5 (fire 5 [1] "onMouseOver" click w) ≫= shown_tooltip)
    = Some (El "Tooltip" [ ("id", PStr "t1") ] [])
  ∧ (output_of 5 (fire 5 [1] "onMouseOut" click w) ≫= shown_tooltip)
    = Some Null.
Proof.
  destruct (TrendChart_tooltip "t1" 5 false 1
              (mount 5 (CopyPaste.TrendChart "t1") (emptyWorld (fun _ => "")))
              eq_refl eq_refl) as (H1 & H2 & _).
  split; [exact H1 | exact H2].
Defined.

(** X16: the three ways of sharing the hover logic run the same code.
    In every render context, the component [withHover] makes of
    [Component], [Hover] given a [render] prop that calls [Component],
    and a component that calls [useHover] and spreads the attributes it
    returns over a [div] around [Component], return the same output and
    leave the same cells, cursor and cell calls. *)
Theorem hover_patterns_agree
    (Component : list (string * PropV) -> bool -> Element)
    (props : list (string * PropV)) (ctx : RenderCtx) :
  withHover Component props ctx = Hover (Component props) ctx
  ∧ Hover (Component props) ctx
    = ('(hovering, attrs) ← useHover;
       mret (El "div" attrs [ Component props hovering ])) ctx.
Proof.
  split; [reflexivity|].
  unfold Hover, useHover, useState, nextCell.
  unfold mbind, State_bind, mret, State_ret.
  by destruct (rc_cells ctx !! rc_cursor ctx).
Qed.

Lemma Hover_settled (render : bool -> Element) (i : nat) (h : bool) (ver : nat)
    (ev : HoverEvent) (w : World) :
  instances w !! i = Some (settled (Hover render) i [VBool h] ver) →
  renderQueue w = [] →
  fire i [] (match ev with Enter => "onMouseOver" | Leave => "onMouseOut" end)
       click w =
  {| instances :=
       <[i := settled (Hover render) i [VBool (is_enter ev)] (S ver)]> (instances w);
     renderQueue := []; rand := rand w |}.
Proof.
  intros Hw Hq. destruct ev.
  - erewrite fire_handler; [ | exact Hw | reflexivity | reflexivity ].
    eapply settled_pass; try done. repeat constructor.
  - erewrite fire_handler; [ | exact Hw | reflexivity | reflexivity ].
    eapply settled_pass; try done. repeat constructor.
Qed.

(** X17: what [Hover] wraps is rendered from the hovering state:
    after [onMouseOver] on the wrapping [div] its one child is
    [render(true)], after [onMouseOut] it is [render(false)], and
    before any event it is [render(false)]. *)
Theorem Hover_renders_hovering (render : bool -> Element) (i : nat) (h : bool)
    (ver : nat) (w : World) :
  instances w !! i = Some (settled (Hover render) i [VBool h] ver) →
  renderQueue w = [] →
  (children_of <$> output_of i w) = Some [ render h ]
  ∧ (children_of <$> output_of i (fire i [] "onMouseOver" click w))
    = Some [ render true ]
  ∧ (children_of <$> output_of i (fire i [] "onMouseOut" click w))
    = Some [ render false ]
  ∧ ∀ o j, (children_of <$> output_of j (mount j (Hover render) (emptyWorld o)))
           = Some [ render false ].
Proof.
  intros Hw Hq.
  pose proof (Hover_settled render i h ver Enter w Hw Hq) as He.
  pose proof (Hover_settled render i h ver Leave w Hw Hq) as Hl.
  cbn [is_enter] in He, Hl.
  split_and!.
  - unfold output_of. by rewrite Hw.
  - rewrite He. unfold output_of. cbn. by rewrite lookup_insert_eq.
  - rewrite Hl. unfold output_of. cbn. by rewrite lookup_insert_eq.
  - intros o j.
    assert (Hm : mount j (Hover render) (emptyWorld o)
                 = {| instances := <[j := settled (Hover render) j [VBool false] 1]> ∅;
                      renderQueue := []; rand := {| oracle := o; calls := 0 |} |})
      by (by rewrite mount_fresh).
    rewrite Hm. unfold output_of. cbn. by rewrite lookup_insert_eq.
Qed.

Lemma Hover_renders_hovering_witness :
  let render := fun h : bool => Txt (if h then "over" else "out") in
  let w := mount 2 (Hover render) (emptyWorld (fun _ => "")) in
  (children_of <$> output_of 2 (fire 2 [] "onMouseOver" click w))
    = Some [ Txt "over" ]
  ∧ (children_of <$> output_of 2 (fire 2 [] "onMouseOut" click w))
    = Some [ Txt "out" ].
Proof.
  intros render w.
  destruct (Hover_renders_hovering render 2 false 1 w eq_refl eq_refl)
    as (_ & H1 & H2 & _).
  split; [exact H1 | exact H2].
Defined.

